(** * Earnings calculator: the cohort projection engine of [payments_app.py]

    A shallow embedding of the computational core of the application
    ([is_active_by_lifetime], [survival_factor], [per_client_payment],
    [build_monthly_dataframe], [yearly_totals]) and the properties of it
    that the specification states.

    Numbers.  Python [int]s are [Z].  Python [float]s are modelled by exact
    rationals [Q]: sums, products and powers are the mathematical ones, so
    rounding, overflow and NaN are outside the model, and equality of
    amounts is [Qeq] (written [==]).  Strings are [string]s and are compared
    the way the source compares them. *)

From Stdlib Require Import ZArith QArith Qminmax Qpower Bool List String Lia FinFun Sorted.
Import ListNotations.

Local Open Scope Z_scope.

(** ** Helpers: lifetime and churn *)

Definition is_active_by_lifetime (age_from_activation age_from_first_payment
                                  lifetime_months : Z)
                                 (lifetime_mode : string) : bool :=
  if lifetime_months <=? 0 then true
  else if String.eqb lifetime_mode "From activation"
       then age_from_activation <? lifetime_months
       else age_from_first_payment <? lifetime_months.

Definition survival_factor (churn_rate : Q) (churn_age : Z) : Q :=
  if Qle_bool churn_rate 0 || (churn_age <=? 0) then 1%Q
  else ((1 - churn_rate) ^ churn_age)%Q.

(** ** Payment logic per contract *)

Definition per_client_payment (contract_type : string)
                              (age_from_activation free_months intro_months : Z)
                              (intro_amount recurring_amount flat_amount : Q) : Q :=
  if age_from_activation <? free_months then 0%Q
  else
    let eff_age := age_from_activation - free_months in
    if String.eqb contract_type "Intro + Recurring" then
      if eff_age <? intro_months then intro_amount else recurring_amount
    else flat_amount.

(** ** Core calculator *)

(** The keyword arguments of [build_monthly_dataframe], as one record. *)
Record Params := {
  months : Z;
  default_new_clients : Z;
  override_month : Z;            (* 0 = off; otherwise 1..months *)
  override_new_clients : Z;
  cancellations_mode : string;   (* "Fixed" or "Churn" *)
  cancellations : Z;             (* only when Fixed *)
  churn_percent : Q;             (* only when Churn *)
  commission_rate : Q;
  payout_policy : string;
  payout_type : string;
  use_new_sale_bonus : bool;
  new_sale_payout : Q;
  payout_duration : Z;
  contract_type : string;
  free_months : Z;
  intro_months : Z;
  intro_amount : Q;
  recurring_amount : Q;
  flat_amount : Q;
  lifetime_months : Z;           (* 0 = unlimited *)
  lifetime_mode : string;
  currency : string
}.

(** One dictionary of the [rows] list.  The "Cancellations" cell holds the
    integer in Fixed mode and the string "-" otherwise. *)
Record Row := {
  Month : Z;
  New_Clients : Z;
  Cancellations : Z + string;
  Mode : string;
  Net_Activations : Z;
  Signed_SMEs_Cumulative : Z;
  Paying_SMEs_this_month : Q;
  Client_Payments_Gross : Q;
  New_Sale_Income : Q;
  Commission_from_Clients : Q;
  Total_Monthly_Earnings : Q
}.

Record Cohort := { birth : Z; size : Z }.

(** The variables that live across iterations of the month loop. *)
Record LoopState := {
  rows : list Row;
  cohorts : list Cohort;
  signed_cum : Z
}.

Definition Qlt_bool (x y : Q) : bool := negb (Qle_bool y x).

(** Python's [range(lo, hi)]. *)
Definition range (lo hi : Z) : list Z :=
  map (fun i => lo + Z.of_nat i) (seq 0 (Z.to_nat (hi - lo))).

Definition churn_rate_of (churn_percent : Q) : Q :=
  Qmax (Qmin (churn_percent / 100) (99 # 100)) 0.

Definition include_bonus_of (payout_policy : string) : bool :=
  existsb (String.eqb payout_policy)
          ["Bonus only (no recurring)"; "Bonus + Recurring"]%string.

Definition include_recurring_of (payout_policy : string) : bool :=
  existsb (String.eqb payout_policy)
          ["Bonus + Recurring"; "Recurring only (no bonus)"]%string.

Section Engine.

Variable p : Params.

Let churn_rate := churn_rate_of (churn_percent p).
Let include_bonus := include_bonus_of (payout_policy p).
Let include_recurring := include_recurring_of (payout_policy p).
Let bonus_is_commissionable := String.eqb (payout_type p) "Commissionable (x%)".

(** Body of [for c in cohorts], threading the two accumulators
    [(gross_client_payments, paying_clients_this_month)]; a [continue]
    returns them unchanged. *)
Definition cohort_body (m : Z) (acc : Q * Q) (c : Cohort) : Q * Q :=
  let '(gross_client_payments, paying_clients_this_month) := acc in
  let age_from_activation := m - birth c in
  if age_from_activation <? 0 then acc
  else
    let age_from_first_payment := Z.max (age_from_activation - free_months p) 0 in
    let active_by_life :=
      is_active_by_lifetime age_from_activation age_from_first_payment
                            (lifetime_months p) (lifetime_mode p) in
    if negb active_by_life then acc
    else
      let sf :=
        if String.eqb (cancellations_mode p) "Churn" then
          let churn_age :=
            if String.eqb (lifetime_mode p) "From activation"
            then age_from_activation else age_from_first_payment in
          survival_factor churn_rate churn_age
        else 1%Q in
      let per_client_gross :=
        per_client_payment (contract_type p) age_from_activation
                           (free_months p) (intro_months p)
                           (intro_amount p) (recurring_amount p)
                           (flat_amount p) in
      if Qlt_bool 0 per_client_gross then
        let active_clients := (inject_Z (size c) * sf)%Q in
        ((gross_client_payments + per_client_gross * active_clients)%Q,
         (paying_clients_this_month + active_clients)%Q)
      else acc.

(** Body of [for m in range(1, months + 1)]. *)
Definition month_body (st : LoopState) (m : Z) : LoopState :=
  let new_clients_this_month :=
    if (override_month p =? m) && (override_month p >? 0)
    then override_new_clients p else default_new_clients p in
  let net_size :=
    if String.eqb (cancellations_mode p) "Fixed"
    then Z.max (new_clients_this_month - cancellations p) 0
    else new_clients_this_month in
  let cohorts' := cohorts st ++ [{| birth := m; size := net_size |}] in
  let signed_cum' := signed_cum st + net_size in
  let '(gross_client_payments, paying_clients_this_month) :=
    if include_recurring
    then fold_left (cohort_body m) cohorts' (0%Q, 0%Q)
    else (0%Q, 0%Q) in
  let commission_from_clients :=
    if include_recurring
    then (gross_client_payments * commission_rate p)%Q else 0%Q in
  let bonus_raw :=
    if include_bonus && use_new_sale_bonus p
       && (payout_duration p >? 0) && (m <=? payout_duration p)
    then (new_sale_payout p * inject_Z new_clients_this_month)%Q
    else 0%Q in
  let bonus_to_agent :=
    if bonus_is_commissionable
    then (bonus_raw * commission_rate p)%Q else bonus_raw in
  let total :=
    if String.eqb (payout_policy p) "Bonus only (no recurring)"
    then bonus_to_agent
    else if String.eqb (payout_policy p) "Recurring only (no bonus)"
         then commission_from_clients
         else (bonus_to_agent + commission_from_clients)%Q in
  {| rows := rows st ++
       [{| Month := m;
           New_Clients := new_clients_this_month;
           Cancellations :=
             if String.eqb (cancellations_mode p) "Fixed"
             then inl (cancellations p) else inr "-"%string;
           Mode := cancellations_mode p;
           Net_Activations := net_size;
           Signed_SMEs_Cumulative := signed_cum';
           Paying_SMEs_this_month := paying_clients_this_month;
           Client_Payments_Gross := gross_client_payments;
           New_Sale_Income := bonus_to_agent;
           Commission_from_Clients := commission_from_clients;
           Total_Monthly_Earnings := total |}];
     cohorts := cohorts';
     signed_cum := signed_cum' |}.

Definition initial_state : LoopState :=
  {| rows := []; cohorts := []; signed_cum := 0 |}.

Definition build_monthly_dataframe : list Row :=
  rows (fold_left month_body (range 1 (months p + 1)) initial_state).

End Engine.

(** ** Yearly totals *)

(** A row of the frame returned by [yearly_totals]. *)
Record YearRow := {
  Year : Z;
  Y_Client_Payments_Gross : Q;
  Y_New_Sale_Income : Q;
  Y_Commission_from_Clients : Q;
  Total_Yearly_Earnings : Q
}.

(** [(out["Month"] - 1) // 12 + 1]; [//] is floor division, as [Z.div]. *)
Definition year_of (r : Row) : Z := (Month r - 1) / 12 + 1.

(** [groupby("Year", as_index=False).agg(... "sum")]: one output row per
    distinct key, keys in ascending order, each of the four columns summed
    over the rows of the group.  [group_add] files one monthly row under its
    key in an accumulator kept sorted by key. *)
Definition open_group (y : Z) (r : Row) : YearRow :=
  {| Year := y;
     Y_Client_Payments_Gross := (0 + Client_Payments_Gross r)%Q;
     Y_New_Sale_Income := (0 + New_Sale_Income r)%Q;
     Y_Commission_from_Clients := (0 + Commission_from_Clients r)%Q;
     Total_Yearly_Earnings := (0 + Total_Monthly_Earnings r)%Q |}.

Definition extend_group (g : YearRow) (r : Row) : YearRow :=
  {| Year := Year g;
     Y_Client_Payments_Gross :=
       (Y_Client_Payments_Gross g + Client_Payments_Gross r)%Q;
     Y_New_Sale_Income := (Y_New_Sale_Income g + New_Sale_Income r)%Q;
     Y_Commission_from_Clients :=
       (Y_Commission_from_Clients g + Commission_from_Clients r)%Q;
     Total_Yearly_Earnings :=
       (Total_Yearly_Earnings g + Total_Monthly_Earnings r)%Q |}.

Fixpoint group_add (y : Z) (r : Row) (acc : list YearRow) : list YearRow :=
  match acc with
  | [] => [open_group y r]
  | g :: rest =>
      if y <? Year g then open_group y r :: acc
      else if y =? Year g then extend_group g r :: rest
           else g :: group_add y r rest
  end.

Definition groupby_year_sum (df : list Row) : list YearRow :=
  fold_left (fun acc r => group_add (year_of r) r acc) df [].

(** A frame built from an empty list of dictionaries has no columns, so
    [out["Month"]] raises [KeyError]: that is [None]. *)
Definition yearly_totals (df : list Row) : option (list YearRow) :=
  match df with
  | [] => None
  | _ :: _ => Some (groupby_year_sum df)
  end.

(** ** Export *)

(** What a worksheet cell can hold here: a Python [int], [float], [str] or
    [bool]. *)
Inductive CellValue :=
| CInt (z : Z)
| CFloat (q : Q)
| CStr (s : string)
| CBool (b : bool).

(** A worksheet, as the list of its cell assignments in the order they are
    made: row, column, value.  ["A7"] is row 7 of column 1. *)
Definition Sheet := list (Z * Z * CellValue).

Record Workbook := { Sheet1 : Sheet; Foglio1 : Sheet }.

(** The value a cell ends up with: that of the last assignment to it. *)
Fixpoint cell (ws : Sheet) (row col : Z) : option CellValue :=
  match ws with
  | [] => None
  | (r, c, v) :: rest =>
      match cell rest row col with
      | Some v' => Some v'
      | None => if (r =? row) && (c =? col) then Some v else None
      end
  end.

(** Python's [enumerate(l, start)]. *)
Fixpoint enumerate {A : Type} (start : Z) (l : list A) : list (Z * A) :=
  match l with
  | [] => []
  | x :: rest => (start, x) :: enumerate (start + 1) rest
  end.

(** A row of the frame as the dictionary the engine appended: its keys in
    insertion order, with the values as Python holds them. *)
Definition row_items (r : Row) : list (string * CellValue) :=
  [("Month", CInt (Month r));
   ("New Clients", CInt (New_Clients r));
   ("Cancellations",
    match Cancellations r with
    | inl z => CInt z
    | inr s => CStr s
    end);
   ("Mode", CStr (Mode r));
   ("Net Activations", CInt (Net_Activations r));
   ("Signed SMEs (Cumulative)", CInt (Signed_SMEs_Cumulative r));
   ("Paying SMEs (this month)", CFloat (Paying_SMEs_this_month r));
   ("Client Payments (Gross)", CFloat (Client_Payments_Gross r));
   ("New Sale Income", CFloat (New_Sale_Income r));
   ("Commission from Clients", CFloat (Commission_from_Clients r));
   ("Total Monthly Earnings", CFloat (Total_Monthly_Earnings r))]%string.

(** [list(df.columns)]: the keys of the row dictionaries; a frame without
    rows has no columns. *)
Definition columns (df : list Row) : list string :=
  match df with
  | [] => []
  | r :: _ => map fst (row_items r)
  end.

(** [row[h]]; a missing key raises [KeyError], that is [None]. *)
Definition row_get (row : Row) (h : string) : option CellValue :=
  option_map snd (find (fun kv => String.eqb (fst kv) h) (row_items row)).

(** [float(val) if isinstance(val, (int, float)) else val]; a [bool] is an
    [int] to [isinstance]. *)
Definition float_if_number (val : CellValue) : CellValue :=
  match val with
  | CInt z => CFloat (inject_Z z)
  | CFloat q => CFloat q
  | CBool b => CFloat (if b then 1 else 0)
  | CStr s => CStr s
  end.

(** Body of [for k, v in inputs.items()], threading the sheet and [r]. *)
Definition write_input (st : Sheet * Z) (kv : string * CellValue)
  : Sheet * Z :=
  let '(ws, r) := st in
  let '(k, v) := kv in
  (ws ++ [(r, 1, CStr k); (r, 2, v)], r + 1).

(** Body of [for col_idx, h in enumerate(headers, start=1)]. *)
Definition write_header (start_row : Z) (ws : Sheet) (entry : Z * string)
  : Sheet :=
  let '(col_idx, h) := entry in
  ws ++ [(start_row, col_idx, CStr h)].

(** Body of [for j, h in enumerate(headers, start=1)], for the [i]-th row
    of the frame; [None] once a [row[h]] has raised. *)
Definition write_value (start_row i : Z) (row : Row) (ws : option Sheet)
                       (entry : Z * string) : option Sheet :=
  let '(j, h) := entry in
  match ws with
  | None => None
  | Some ws =>
      match row_get row h with
      | None => None
      | Some val => Some (ws ++ [(start_row + i, j, float_if_number val)])
      end
  end.

(** Body of [for i, (_, row) in enumerate(df.iterrows(), start=1)]. *)
Definition write_row (start_row : Z) (headers : list string)
                     (ws : option Sheet) (entry : Z * Row) : option Sheet :=
  let '(i, row) := entry in
  fold_left (write_value start_row i row) (enumerate 1 headers) ws.

(** Body of [for idx, row in yt.iterrows()]. *)
Definition write_year (ws2 : Sheet) (entry : Z * YearRow) : Sheet :=
  let '(idx, row) := entry in
  let base := 5 + idx in
  ws2 ++ [(base, 1, CInt (Year row));
          (base, 2, CFloat (Y_Client_Payments_Gross row));
          (base, 3, CFloat (Y_New_Sale_Income row));
          (base, 4, CFloat (Y_Commission_from_Clients row));
          (base, 5, CFloat (Total_Yearly_Earnings row))].

(** [to_excel_values], up to the cell contents of the two sheets: the
    column widths and the serialisation of the workbook to bytes are left
    out.  [inputs] is the dictionary as the list of its items, and
    [generated] stands for the formatted [datetime.now()].  An exception
    raised by the code of this file or by the frame is [None].  The
    worksheet library's own checks of an assigned value (it refuses a
    string with a control character) are not modelled: [Some wb] describes
    the workbook of a run in which every assignment is accepted, and the
    properties below are stated for the workbook the export returns. *)
Definition to_excel_values (df : list Row) (inputs : list (string * CellValue))
                           (generated : string) : option Workbook :=
  let ws := [(1, 1, CStr "Inputs")] in
  let '(ws, r) := fold_left write_input inputs (ws, 2) in
  let headers := columns df in
  let start_row := r + 1 in
  let ws := fold_left (write_header start_row) (enumerate 1 headers) ws in
  match fold_left (write_row start_row headers) (enumerate 1 df) (Some ws) with
  | None => None
  | Some ws =>
      let ws2 := [(1, 1, CStr "Payments – Summary");
                  (2, 1, CStr "Generated");
                  (2, 2, CStr generated)] in
      match yearly_totals df with
      | None => None
      | Some yt =>
          let ws2 :=
            match yt with
            | [] => ws2
            | _ :: _ =>
                fold_left write_year (enumerate 0 yt)
                  (ws2 ++ [(4, 1, CStr "Year");
                           (4, 2, CStr "Client Payments (Gross)");
                           (4, 3, CStr "New Sale Income");
                           (4, 4, CStr "Commission from Clients");
                           (4, 5, CStr "Total Yearly Earnings")])
            end in
          Some {| Sheet1 := ws; Foglio1 := ws2 |}
      end
  end.

(** ** The input form *)

(** What the widgets of the sidebar return.  A widget that is only created
    in one branch of the script has a field all the same; the script does
    not read it in the other branch. *)
Record Form := {
  months_slider : Z;
  currency_input : string;
  default_new_clients_input : Z;
  use_override : bool;
  override_month_input : Z;
  override_new_clients_input : Z;
  cancellations_mode_radio : string;
  cancellations_input : Z;
  churn_slider : Z;
  lifetime_months_input : Z;
  lifetime_mode_radio : string;
  contract_type_radio : string;
  free_months_input : Z;
  intro_months_input : Z;
  intro_amount_input : Q;
  recurring_amount_input : Q;
  flat_amount_input : Q;
  commission_pct : Z;
  payout_policy_select : string;
  payout_type_radio : string;
  use_new_sale_bonus_box : bool;
  new_sale_payout_input : Q;
  payout_duration_input : Z
}.

(** The arguments the script passes to [build_monthly_dataframe]. *)
Definition form_params (f : Form) : Params :=
  let months := months_slider f in
  let currency := currency_input f in
  let default_new_clients := default_new_clients_input f in
  let '(override_month, override_new_clients) :=
    if use_override f
    then (override_month_input f, override_new_clients_input f)
    else (0, 0) in
  let '(cancellations, churn_percent, mode_key) :=
    if String.prefix "Fixed" (cancellations_mode_radio f)
    then (cancellations_input f, 0%Q, "Fixed"%string)
    else (0, inject_Z (churn_slider f), "Churn"%string) in
  let lifetime_months := lifetime_months_input f in
  let lifetime_mode := lifetime_mode_radio f in
  let contract_type := contract_type_radio f in
  let free_months := free_months_input f in
  let '(intro_months, intro_amount, recurring_amount, flat_amount) :=
    if String.eqb contract_type "Intro + Recurring"
    then (intro_months_input f, intro_amount_input f,
          recurring_amount_input f, 0%Q)
    else (0, 0%Q, 0%Q, flat_amount_input f) in
  let commission_rate := (inject_Z (commission_pct f) / 100)%Q in
  {| months := months;
     default_new_clients := default_new_clients;
     override_month := override_month;
     override_new_clients := override_new_clients;
     cancellations_mode := mode_key;
     cancellations := cancellations;
     churn_percent := churn_percent;
     commission_rate := commission_rate;
     payout_policy := payout_policy_select f;
     payout_type := payout_type_radio f;
     use_new_sale_bonus := use_new_sale_bonus_box f;
     new_sale_payout := new_sale_payout_input f;
     payout_duration := payout_duration_input f;
     contract_type := contract_type;
     free_months := free_months;
     intro_months := intro_months;
     intro_amount := intro_amount;
     recurring_amount := recurring_amount;
     flat_amount := flat_amount;
     lifetime_months := lifetime_months;
     lifetime_mode := lifetime_mode;
     currency := currency |}.

(** The ranges and options the script gives its widgets: [min_value],
    [max_value], [step] and [options], for the widgets the script creates
    in the state [f]. *)
Record widget_bounds (f : Form) : Prop := {
  months_steps : In (months_slider f) [12; 24; 36; 48; 60];
  default_new_clients_min : 0 <= default_new_clients_input f;
  override_range :
    use_override f = true ->
    1 <= override_month_input f <= months_slider f /\
    0 <= override_new_clients_input f;
  cancellations_mode_options :
    In (cancellations_mode_radio f)
       ["Fixed cancellations per month"; "Churn % per active month"]%string;
  cancellations_min :
    String.prefix "Fixed" (cancellations_mode_radio f) = true ->
    0 <= cancellations_input f;
  churn_range :
    String.prefix "Fixed" (cancellations_mode_radio f) = false ->
    0 <= churn_slider f <= 50;
  lifetime_months_min : 0 <= lifetime_months_input f;
  lifetime_mode_options :
    In (lifetime_mode_radio f) ["From activation"; "After free months"]%string;
  contract_type_options :
    In (contract_type_radio f) ["Intro + Recurring"; "Flat Monthly"]%string;
  free_months_range : 0 <= free_months_input f <= 24;
  intro_range :
    contract_type_radio f = "Intro + Recurring"%string ->
    1 <= intro_months_input f <= 24 /\
    (0 <= intro_amount_input f)%Q /\ (0 <= recurring_amount_input f)%Q;
  flat_min :
    contract_type_radio f <> "Intro + Recurring"%string ->
    (0 <= flat_amount_input f)%Q;
  commission_range : 0 <= commission_pct f <= 100;
  payout_policy_options :
    In (payout_policy_select f)
       ["Bonus only (no recurring)"; "Bonus + Recurring";
        "Recurring only (no bonus)"]%string;
  payout_type_options :
    In (payout_type_radio f) ["Commissionable (x%)"; "Flat (direct)"]%string;
  new_sale_payout_min : (0 <= new_sale_payout_input f)%Q;
  payout_duration_range : 0 <= payout_duration_input f <= 24
}.

(** The form as it opens, every widget at its default (the currency
    symbol spelled out). *)
Definition form_at_rest : Form :=
  {| months_slider := 36;
     currency_input := "GBP";
     default_new_clients_input := 12;
     use_override := false;
     override_month_input := 5;
     override_new_clients_input := 20;
     cancellations_mode_radio := "Fixed cancellations per month";
     cancellations_input := 2;
     churn_slider := 0;
     lifetime_months_input := 0;
     lifetime_mode_radio := "From activation";
     contract_type_radio := "Intro + Recurring";
     free_months_input := 0;
     intro_months_input := 3;
     intro_amount_input := 300;
     recurring_amount_input := 150;
     flat_amount_input := 100;
     commission_pct := 80;
     payout_policy_select := "Bonus + Recurring";
     payout_type_radio := "Commissionable (x%)";
     use_new_sale_bonus_box := true;
     new_sale_payout_input := 160;
     payout_duration_input := 1 |}.

(** ** Vocabulary of the statements *)

(** The loop state after the first [n] months. *)
Definition run (p : Params) (n : Z) : LoopState :=
  fold_left (month_body p) (range 1 (n + 1)) initial_state.

(** Mathematical sum of a column. *)
Definition Qsum (l : list Q) : Q := fold_right Qplus 0%Q l.

(** The monthly rows that [yearly_totals] files under year [y]. *)
Definition months_of_year (y : Z) (df : list Row) : list Row :=
  filter (fun r => year_of r =? y) df.

(** The four columns that [yearly_totals] sums, as read from a monthly row
    and from a yearly row. *)
Inductive Metric := Gross | Bonus | Commission | Total.

Definition monthly (k : Metric) (r : Row) : Q :=
  match k with
  | Gross => Client_Payments_Gross r
  | Bonus => New_Sale_Income r
  | Commission => Commission_from_Clients r
  | Total => Total_Monthly_Earnings r
  end.

Definition yearly (k : Metric) (g : YearRow) : Q :=
  match k with
  | Gross => Y_Client_Payments_Gross g
  | Bonus => Y_New_Sale_Income g
  | Commission => Y_Commission_from_Clients g
  | Total => Total_Yearly_Earnings g
  end.

(** [out] is the grouping of [df] by year: keys strictly ascending, exactly
    the years that occur in [df], each with the sums of its months. *)
Record grouped (df : list Row) (out : list YearRow) : Prop := {
  keys_ascending : StronglySorted Z.lt (map Year out);
  keys_exact : forall y, In y (map Year out) <-> In y (map year_of df);
  sums_exact : forall g k,
      In g out ->
      (yearly k g == Qsum (map (monthly k) (months_of_year (Year g) df)))%Q
}.

(** The bonus is payable in month [m]. *)
Definition bonus_payable (p : Params) (m : Z) : Prop :=
  (payout_policy p = "Bonus only (no recurring)"%string \/
   payout_policy p = "Bonus + Recurring"%string) /\
  use_new_sale_bonus p = true /\
  payout_duration p > 0 /\
  m <= payout_duration p.

(** The constraints the input form enforces on the parameters. *)
Record valid_params (p : Params) : Prop := {
  valid_months : 1 <= months p;
  valid_commission : (0 <= commission_rate p /\ commission_rate p <= 1)%Q;
  valid_churn : (0 <= churn_percent p /\ churn_percent p <= 100)%Q;
  valid_new_sale_payout : (0 <= new_sale_payout p)%Q;
  valid_intro_amount : (0 <= intro_amount p)%Q;
  valid_recurring_amount : (0 <= recurring_amount p)%Q;
  valid_flat_amount : (0 <= flat_amount p)%Q;
  valid_free_months : 0 <= free_months p;
  valid_intro_months : 0 <= intro_months p;
  valid_lifetime_months : 0 <= lifetime_months p;
  valid_payout_duration : 0 <= payout_duration p;
  valid_default_new_clients : 0 <= default_new_clients p;
  valid_override_new_clients : 0 <= override_new_clients p;
  valid_cancellations : 0 <= cancellations p
}.

(** Two parameter sets that agree on everything but the currency label. *)
Definition with_currency (c : string) (p : Params) : Params :=
  {| months := months p;
     default_new_clients := default_new_clients p;
     override_month := override_month p;
     override_new_clients := override_new_clients p;
     cancellations_mode := cancellations_mode p;
     cancellations := cancellations p;
     churn_percent := churn_percent p;
     commission_rate := commission_rate p;
     payout_policy := payout_policy p;
     payout_type := payout_type p;
     use_new_sale_bonus := use_new_sale_bonus p;
     new_sale_payout := new_sale_payout p;
     payout_duration := payout_duration p;
     contract_type := contract_type p;
     free_months := free_months p;
     intro_months := intro_months p;
     intro_amount := intro_amount p;
     recurring_amount := recurring_amount p;
     flat_amount := flat_amount p;
     lifetime_months := lifetime_months p;
     lifetime_mode := lifetime_mode p;
     currency := c |}.

(** The seven quantities of a row that the model never lets go negative. *)
Record row_nonneg (r : Row) : Prop := {
  nonneg_net : 0 <= Net_Activations r;
  nonneg_signed : 0 <= Signed_SMEs_Cumulative r;
  nonneg_paying : (0 <= Paying_SMEs_this_month r)%Q;
  nonneg_gross : (0 <= Client_Payments_Gross r)%Q;
  nonneg_bonus : (0 <= New_Sale_Income r)%Q;
  nonneg_commission : (0 <= Commission_from_Clients r)%Q;
  nonneg_total : (0 <= Total_Monthly_Earnings r)%Q
}.

(** A column does not decrease from one row to the next. *)
Definition nondecreasing (column : Row -> Z) (df : list Row) : Prop :=
  forall (i : nat) (r1 r2 : Row),
    nth_error df i = Some r1 -> nth_error df (S i) = Some r2 ->
    column r1 <= column r2.

(** What the month loop maintains between iterations. *)
Record loop_invariant (st : LoopState) : Prop := {
  inv_cohorts : Forall (fun c => 0 <= size c) (cohorts st);
  inv_signed : 0 <= signed_cum st;
  inv_rows : Forall row_nonneg (rows st);
  inv_bound : Forall (fun r => Signed_SMEs_Cumulative r <= signed_cum st)
                     (rows st);
  inv_step : nondecreasing Signed_SMEs_Cumulative (rows st)
}.

(** The row of month [m] in the result (a blank row when [m] is outside
    [1..months]). *)
Definition blank_row : Row :=
  {| Month := 0; New_Clients := 0; Cancellations := inr EmptyString;
     Mode := EmptyString; Net_Activations := 0; Signed_SMEs_Cumulative := 0;
     Paying_SMEs_this_month := 0; Client_Payments_Gross := 0;
     New_Sale_Income := 0; Commission_from_Clients := 0;
     Total_Monthly_Earnings := 0 |}.

Definition row_of_month (p : Params) (m : Z) : Row :=
  nth (Z.to_nat (m - 1)) (build_monthly_dataframe p) blank_row.

(** ** Sample parameter sets *)

(** The defaults of the input form, over a 12-month horizon. *)
Definition form_defaults : Params :=
  {| months := 12;
     default_new_clients := 12;
     override_month := 0;
     override_new_clients := 0;
     cancellations_mode := "Fixed";
     cancellations := 2;
     churn_percent := 0;
     commission_rate := 80 # 100;
     payout_policy := "Bonus + Recurring";
     payout_type := "Commissionable (x%)";
     use_new_sale_bonus := true;
     new_sale_payout := 160;
     payout_duration := 1;
     contract_type := "Intro + Recurring";
     free_months := 0;
     intro_months := 3;
     intro_amount := 300;
     recurring_amount := 150;
     flat_amount := 0;
     lifetime_months := 0;
     lifetime_mode := "From activation";
     currency := "GBP" |}.

Definition with_policy (policy : string) (p : Params) : Params :=
  {| months := months p;
     default_new_clients := default_new_clients p;
     override_month := override_month p;
     override_new_clients := override_new_clients p;
     cancellations_mode := cancellations_mode p;
     cancellations := cancellations p;
     churn_percent := churn_percent p;
     commission_rate := commission_rate p;
     payout_policy := policy;
     payout_type := payout_type p;
     use_new_sale_bonus := use_new_sale_bonus p;
     new_sale_payout := new_sale_payout p;
     payout_duration := payout_duration p;
     contract_type := contract_type p;
     free_months := free_months p;
     intro_months := intro_months p;
     intro_amount := intro_amount p;
     recurring_amount := recurring_amount p;
     flat_amount := flat_amount p;
     lifetime_months := lifetime_months p;
     lifetime_mode := lifetime_mode p;
     currency := currency p |}.

Definition with_override (month value : Z) (p : Params) : Params :=
  {| months := months p;
     default_new_clients := default_new_clients p;
     override_month := month;
     override_new_clients := value;
     cancellations_mode := cancellations_mode p;
     cancellations := cancellations p;
     churn_percent := churn_percent p;
     commission_rate := commission_rate p;
     payout_policy := payout_policy p;
     payout_type := payout_type p;
     use_new_sale_bonus := use_new_sale_bonus p;
     new_sale_payout := new_sale_payout p;
     payout_duration := payout_duration p;
     contract_type := contract_type p;
     free_months := free_months p;
     intro_months := intro_months p;
     intro_amount := intro_amount p;
     recurring_amount := recurring_amount p;
     flat_amount := flat_amount p;
     lifetime_months := lifetime_months p;
     lifetime_mode := lifetime_mode p;
     currency := currency p |}.

(** The form's defaults in Churn mode, at 10% churn per month. *)
Definition churn_defaults : Params :=
  {| months := 12;
     default_new_clients := 12;
     override_month := 0;
     override_new_clients := 0;
     cancellations_mode := "Churn";
     cancellations := 0;
     churn_percent := 10;
     commission_rate := 80 # 100;
     payout_policy := "Bonus + Recurring";
     payout_type := "Commissionable (x%)";
     use_new_sale_bonus := true;
     new_sale_payout := 160;
     payout_duration := 1;
     contract_type := "Intro + Recurring";
     free_months := 1;
     intro_months := 3;
     intro_amount := 300;
     recurring_amount := 150;
     flat_amount := 0;
     lifetime_months := 6;
     lifetime_mode := "After free months";
     currency := "GBP" |}.

(** ** Vocabulary of the further properties *)

(** Sum of an integer column. *)
Definition Zsum (l : list Z) : Z := fold_right Z.add 0 l.

(** A parameter set with another horizon. *)
Definition with_months (n : Z) (p : Params) : Params :=
  {| months := n;
     default_new_clients := default_new_clients p;
     override_month := override_month p;
     override_new_clients := override_new_clients p;
     cancellations_mode := cancellations_mode p;
     cancellations := cancellations p;
     churn_percent := churn_percent p;
     commission_rate := commission_rate p;
     payout_policy := payout_policy p;
     payout_type := payout_type p;
     use_new_sale_bonus := use_new_sale_bonus p;
     new_sale_payout := new_sale_payout p;
     payout_duration := payout_duration p;
     contract_type := contract_type p;
     free_months := free_months p;
     intro_months := intro_months p;
     intro_amount := intro_amount p;
     recurring_amount := recurring_amount p;
     flat_amount := flat_amount p;
     lifetime_months := lifetime_months p;
     lifetime_mode := lifetime_mode p;
     currency := currency p |}.

(** Net activations of a month in Fixed mode without override. *)
Definition fixed_net (p : Params) : Z :=
  Z.max (default_new_clients p - cancellations p) 0.

(** The form's defaults with a flat contract of 100 and two free months. *)
Definition flat_defaults : Params :=
  {| months := 12;
     default_new_clients := 12;
     override_month := 0;
     override_new_clients := 0;
     cancellations_mode := "Fixed";
     cancellations := 2;
     churn_percent := 0;
     commission_rate := 80 # 100;
     payout_policy := "Bonus + Recurring";
     payout_type := "Commissionable (x%)";
     use_new_sale_bonus := true;
     new_sale_payout := 160;
     payout_duration := 1;
     contract_type := "Flat Monthly";
     free_months := 2;
     intro_months := 0;
     intro_amount := 0;
     recurring_amount := 0;
     flat_amount := 100;
     lifetime_months := 0;
     lifetime_mode := "From activation";
     currency := "GBP" |}.

(** The number of months, counted from activation, during which the
    lifetime gate lets a cohort through when [lifetime_months > 0]. *)
Definition lifetime_window (lifetime_months free_months : Z)
                           (lifetime_mode : string) : Z :=
  if String.eqb lifetime_mode "From activation"
  then lifetime_months
  else lifetime_months + free_months.

(** A frame that is not in month order: months 14, 3 and 13, with total
    earnings 5, 7 and 11. *)
Definition earnings_row (m : Z) (total : Q) : Row :=
  {| Month := m; New_Clients := 0; Cancellations := inl 0;
     Mode := "Fixed"; Net_Activations := 0; Signed_SMEs_Cumulative := 0;
     Paying_SMEs_this_month := 0; Client_Payments_Gross := 0;
     New_Sale_Income := 0; Commission_from_Clients := total;
     Total_Monthly_Earnings := total |}.

Definition shuffled_frame : list Row :=
  [earnings_row 14 5; earnings_row 3 7; earnings_row 13 11].

(** ** Vocabulary of the export properties *)

(** The cells of the first sheet, block by block: the items of [inputs]
    from row [r] on, the header in row [start_row], and the rows of the
    frame below it. *)
Fixpoint input_cells (r : Z) (inputs : list (string * CellValue)) : Sheet :=
  match inputs with
  | [] => []
  | (k, v) :: rest => (r, 1, CStr k) :: (r, 2, v) :: input_cells (r + 1) rest
  end.

Fixpoint line_cells (row col : Z) (values : list CellValue) : Sheet :=
  match values with
  | [] => []
  | v :: rest => (row, col, v) :: line_cells row (col + 1) rest
  end.

Definition exported_values (row : Row) : list CellValue :=
  map (fun kv => float_if_number (snd kv)) (row_items row).

Fixpoint frame_cells (row : Z) (df : list Row) : Sheet :=
  match df with
  | [] => []
  | r :: rest => line_cells row 1 (exported_values r) ++ frame_cells (row + 1) rest
  end.

Definition year_values (g : YearRow) : list CellValue :=
  [CInt (Year g);
   CFloat (Y_Client_Payments_Gross g);
   CFloat (Y_New_Sale_Income g);
   CFloat (Y_Commission_from_Clients g);
   CFloat (Total_Yearly_Earnings g)].

Fixpoint year_cells (row : Z) (yt : list YearRow) : Sheet :=
  match yt with
  | [] => []
  | g :: rest => line_cells row 1 (year_values g) ++ year_cells (row + 1) rest
  end.

(** The rows a block of cells occupies. *)
Definition rows_within (lo hi : Z) (ws : Sheet) : Prop :=
  Forall (fun e => lo <= fst (fst e) < hi) ws.

(** The [inputs] dictionary the script passes to [to_excel_values]. *)
Definition export_inputs (f : Form) : list (string * CellValue) :=
  let p := form_params f in
  [("Months", CInt (months p));
   ("Currency", CStr (currency p));
   ("New Clients / month (default)", CInt (default_new_clients p));
   ("Override month",
    if override_month p >? 0 then CInt (override_month p) else CStr "-");
   ("Override New Clients",
    if override_month p >? 0 then CInt (override_new_clients p)
    else CStr "-");
   ("Cancellations mode", CStr (cancellations_mode p));
   ("Cancellations / month (if Fixed)",
    if String.eqb (cancellations_mode p) "Fixed"
    then CInt (cancellations p) else CStr "-");
   ("Churn % (if Churn)",
    if String.eqb (cancellations_mode p) "Churn"
    then CInt (churn_slider f) else CStr "-");
   ("Lifetime (months)", CInt (lifetime_months p));
   ("Lifetime mode", CStr (lifetime_mode p));
   ("Contract Type", CStr (contract_type p));
   ("Free Months", CInt (free_months p));
   ("Intro Months", CInt (intro_months p));
   ("Intro Amount", CFloat (intro_amount p));
   ("Recurring Amount", CFloat (recurring_amount p));
   ("Flat Amount", CFloat (flat_amount p));
   ("Commission Rate (%)", CInt (commission_pct f));
   ("Payout policy", CStr (payout_policy p));
   ("Payout type", CStr (payout_type p));
   ("Use New Sale Payout", CBool (use_new_sale_bonus p));
   ("New Sale Payout", CFloat (new_sale_payout p));
   ("Payout duration (months)", CInt (payout_duration p))]%string.

(** * Properties *)

(** ** The helpers *)

(** C5.  The contract pricing rule: nothing during the free months; after
    them an "Intro + Recurring" contract pays the intro amount while
    [eff_age < intro_months] and the recurring amount from then on, and any
    other contract type (the flat one) pays the flat amount at every age. *)
Theorem per_client_payment_rule :
  forall (contract_type : string) (age free_months intro_months : Z)
         (intro_amount recurring_amount flat_amount : Q),
    let pay := per_client_payment contract_type age free_months intro_months
                                  intro_amount recurring_amount flat_amount in
    let eff_age := age - free_months in
    (age < free_months -> pay = 0%Q) /\
    (free_months <= age -> contract_type = "Intro + Recurring"%string ->
     eff_age < intro_months -> pay = intro_amount) /\
    (free_months <= age -> contract_type = "Intro + Recurring"%string ->
     intro_months <= eff_age -> pay = recurring_amount) /\
    (free_months <= age -> contract_type <> "Intro + Recurring"%string ->
     pay = flat_amount).
Proof.
  intros ct age fm im ia ra fa pay eff_age. subst pay eff_age.
  unfold per_client_payment.
  destruct (Z.ltb_spec age fm) as [Hfree | Hpaid];
    destruct (String.eqb_spec ct "Intro + Recurring") as [Hct | Hct];
    destruct (Z.ltb_spec (age - fm) im) as [Hintro | Hrec];
    repeat split; intros; try reflexivity; try lia; congruence.
Qed.

Lemma per_client_payment_rule_witness :
  per_client_payment "Flat Monthly" 1 2 0 0 0 100 = 0%Q /\
  per_client_payment "Intro + Recurring" 3 2 3 300 150 0 = 300%Q /\
  per_client_payment "Intro + Recurring" 5 2 3 300 150 0 = 150%Q /\
  per_client_payment "Flat Monthly" 7 2 0 0 0 100 = 100%Q.
Proof.
  destruct (per_client_payment_rule "Flat Monthly" 1 2 0 0 0 100)
    as (Hfree & _).
  destruct (per_client_payment_rule "Intro + Recurring" 3 2 3 300 150 0)
    as (_ & Hintro & _).
  destruct (per_client_payment_rule "Intro + Recurring" 5 2 3 300 150 0)
    as (_ & _ & Hrec & _).
  destruct (per_client_payment_rule "Flat Monthly" 7 2 0 0 0 100)
    as (_ & _ & _ & Hflat).
  split; [| split; [| split]].
  - apply Hfree. lia.
  - apply Hintro; [lia | reflexivity | lia].
  - apply Hrec; [lia | reflexivity | lia].
  - apply Hflat; [lia | discriminate].
Defined.

(** C7.  Lifetime deactivation is monotone: a cohort that the gate reports
    inactive at age [a] is reported inactive at every later age [b], the age
    from the first payment being [max (age - free_months) 0] as in the
    engine. *)
Theorem lifetime_deactivation_monotone :
  forall (lifetime_months free_months : Z) (lifetime_mode : string) (a b : Z),
    a < b ->
    is_active_by_lifetime a (Z.max (a - free_months) 0)
                          lifetime_months lifetime_mode = false ->
    is_active_by_lifetime b (Z.max (b - free_months) 0)
                          lifetime_months lifetime_mode = false.
Proof.
  intros lm fm mode a b Hab. unfold is_active_by_lifetime.
  destruct (lm <=? 0); [discriminate |].
  destruct (String.eqb mode "From activation");
    rewrite !Z.ltb_ge; lia.
Qed.

Lemma lifetime_deactivation_monotone_witness :
  is_active_by_lifetime 9 (Z.max (9 - 2) 0) 6 "After free months" = false.
Proof.
  apply (lifetime_deactivation_monotone 6 2 "After free months" 8 9).
  - lia.
  - reflexivity.
Defined.

(** *** Geometric survival *)

Lemma Qpower_below_one (x : Q) (k : Z) :
  (0 < x)%Q -> (x < 1)%Q -> 0 < k -> (x ^ k < 1)%Q.
Proof.
  intros Hpos Hlt Hk.
  destruct k as [| n | n]; try lia. clear Hk.
  induction n as [| n IH] using Pos.peano_ind.
  - exact Hlt.
  - assert (Hstep : (x ^ Z.pos (Pos.succ n) == x ^ Z.pos n * x)%Q).
    { rewrite Pos2Z.inj_succ. unfold Z.succ. rewrite Qpower_plus'; [| lia].
      reflexivity. }
    rewrite Hstep.
    apply Qlt_trans with (1 * x)%Q.
    + apply Qmult_lt_compat_r; assumption.
    + rewrite Qmult_1_l. exact Hlt.
Qed.

Lemma Qpower_strictly_decreasing (x : Q) (a b : Z) :
  (0 < x)%Q -> (x < 1)%Q -> 0 <= a -> a < b -> (x ^ b < x ^ a)%Q.
Proof.
  intros Hpos Hlt Ha Hab.
  assert (Hsplit : (x ^ b == x ^ a * x ^ (b - a))%Q).
  { rewrite <- Qpower_plus.
    - replace (a + (b - a)) with b by lia. reflexivity.
    - intro H0. rewrite H0 in Hpos. discriminate Hpos. }
  rewrite Hsplit.
  rewrite <- (Qmult_1_r (x ^ a)) at 2.
  apply Qmult_lt_l.
  - apply Qpower_0_lt. exact Hpos.
  - apply Qpower_below_one; [assumption | assumption | lia].
Qed.

Lemma survival_factor_at_zero (churn_rate : Q) :
  survival_factor churn_rate 0 = 1%Q.
Proof.
  unfold survival_factor. rewrite orb_true_r. reflexivity.
Qed.

Lemma survival_factor_positive_age (churn_rate : Q) (churn_age : Z) :
  (0 < churn_rate)%Q -> 0 < churn_age ->
  survival_factor churn_rate churn_age = ((1 - churn_rate) ^ churn_age)%Q.
Proof.
  intros Hr Ha. unfold survival_factor.
  destruct (Qle_bool churn_rate 0) eqn:Hle.
  - apply Qle_bool_iff in Hle. exfalso. apply (Qlt_not_le _ _ Hr Hle).
  - destruct (Z.leb_spec churn_age 0); [lia | reflexivity].
Qed.

(** C6.  At [churn_age = 0] the survival factor is 1 for every rate, and
    for a fixed churn rate above 0 the factor is strictly decreasing in
    [churn_age] over the ages [>= 0].  The rates are those the function is
    called with: the engine clamps its rate into [0, 0.99] before the only
    call ([churn_rate_of_bounds]), so a rate above 0 is also below 1. *)
Theorem survival_factor_strictly_decreasing :
  forall churn_rate : Q,
    (survival_factor churn_rate 0 == 1)%Q /\
    ((0 < churn_rate)%Q -> (churn_rate < 1)%Q ->
     forall a b : Z, 0 <= a -> a < b ->
       (survival_factor churn_rate b < survival_factor churn_rate a)%Q).
Proof.
  intro r. split.
  - rewrite survival_factor_at_zero. reflexivity.
  - intros Hr Hr1 a b Ha Hab.
    assert (Hx0 : (0 < 1 - r)%Q).
    { unfold Qminus. rewrite <- Qlt_minus_iff. exact Hr1. }
    assert (Hx1 : (1 - r < 1)%Q).
    { apply Qplus_lt_l with (z := r). unfold Qminus.
      rewrite <- Qplus_assoc, (Qplus_comm (- r) r), Qplus_opp_r, Qplus_0_r.
      rewrite <- (Qplus_0_r 1) at 1. apply Qplus_lt_r. exact Hr. }
    rewrite (survival_factor_positive_age r b) by (assumption || lia).
    destruct (Z.eq_dec a 0) as [-> | Hne].
    + rewrite survival_factor_at_zero.
      apply Qpower_below_one; [assumption | assumption | lia].
    + rewrite (survival_factor_positive_age r a) by (assumption || lia).
      apply Qpower_strictly_decreasing; assumption.
Qed.

Lemma survival_factor_strictly_decreasing_witness :
  (survival_factor (1 # 2) 3 < survival_factor (1 # 2) 0)%Q.
Proof.
  apply (survival_factor_strictly_decreasing (1 # 2));
    [reflexivity | reflexivity | lia | lia].
Defined.

(** ** The month loop *)

Lemma range_nil (lo hi : Z) : hi <= lo -> range lo hi = [].
Proof.
  intro H. unfold range. replace (Z.to_nat (hi - lo)) with 0%nat by lia.
  reflexivity.
Qed.

Lemma range_snoc (lo hi : Z) :
  lo <= hi -> range lo (hi + 1) = range lo hi ++ [hi].
Proof.
  intro H. unfold range.
  replace (Z.to_nat (hi + 1 - lo)) with (S (Z.to_nat (hi - lo))) by lia.
  rewrite seq_S, map_app. simpl. do 2 f_equal. lia.
Qed.

Lemma In_range (lo hi x : Z) : In x (range lo hi) <-> lo <= x < hi.
Proof.
  unfold range. rewrite in_map_iff. split.
  - intros (i & <- & Hi). apply in_seq in Hi. lia.
  - intro H. exists (Z.to_nat (x - lo)). split; [lia |].
    apply in_seq. lia.
Qed.

Lemma range_length (lo hi : Z) : List.length (range lo hi) = Z.to_nat (hi - lo).
Proof. unfold range. now rewrite length_map, length_seq. Qed.

Lemma range_NoDup (lo hi : Z) : NoDup (range lo hi).
Proof.
  unfold range. apply Injective_map_NoDup.
  - intros i j Hij. lia.
  - apply seq_NoDup.
Qed.

Lemma run_nonpos (p : Params) (n : Z) : n <= 0 -> run p n = initial_state.
Proof. intro H. unfold run. rewrite range_nil by lia. reflexivity. Qed.

Lemma run_succ (p : Params) (n : Z) :
  0 <= n -> run p (n + 1) = month_body p (run p n) (n + 1).
Proof.
  intro H. unfold run. rewrite (range_snoc 1 (n + 1)) by lia.
  now rewrite fold_left_app.
Qed.

Lemma build_monthly_dataframe_run (p : Params) :
  build_monthly_dataframe p = rows (run p (months p)).
Proof. reflexivity. Qed.

(** Each iteration appends exactly one row, one cohort, and nothing else. *)
Lemma month_body_appends (p : Params) (st : LoopState) (m : Z) :
  exists r c,
    rows (month_body p st m) = rows st ++ [r] /\
    cohorts (month_body p st m) = cohorts st ++ [c] /\
    Month r = m /\ birth c = m /\
    size c = Net_Activations r /\
    signed_cum (month_body p st m) = signed_cum st + Net_Activations r /\
    Signed_SMEs_Cumulative r = signed_cum (month_body p st m).
Proof.
  unfold month_body.
  destruct (if include_recurring_of (payout_policy p) then _ else _)
    as [gross paying].
  do 2 eexists. cbn. repeat split.
Qed.

(** Every row of the result was appended by the iteration of its month,
    run from the state the earlier months left. *)
Lemma rows_run_inv (p : Params) (n : Z) :
  0 <= n -> forall r,
  In r (rows (run p n)) ->
  exists k, 0 <= k < n /\
            rows (month_body p (run p k) (k + 1)) = rows (run p k) ++ [r].
Proof.
  intro Hn. pattern n. apply natlike_ind; [| | exact Hn]; clear n Hn.
  - intros r Hr. rewrite run_nonpos in Hr by lia. destruct Hr.
  - intros n Hn IH r Hr. unfold Z.succ in *.
    rewrite run_succ in Hr by assumption.
    destruct (month_body_appends p (run p n) (n + 1)) as (r' & c & Hrows & _).
    rewrite Hrows in Hr. apply in_app_or in Hr as [Hold | [-> | []]].
    + destruct (IH r Hold) as (k & Hk & Hemit). exists k. split; [lia | exact Hemit].
    + exists n. split; [lia | exact Hrows].
Qed.

Lemma In_build_inv (p : Params) (r : Row) :
  In r (build_monthly_dataframe p) ->
  exists k, 0 <= k < months p /\
            rows (month_body p (run p k) (k + 1)) = rows (run p k) ++ [r].
Proof.
  rewrite build_monthly_dataframe_run. intro Hr.
  destruct (Z.le_gt_cases 0 (months p)) as [Hm | Hm].
  - now apply rows_run_inv.
  - rewrite run_nonpos in Hr by lia. destruct Hr.
Qed.

(** One row per month, for the months 1 to [months], in order. *)
Lemma rows_run_months (p : Params) (n : Z) :
  0 <= n -> map Month (rows (run p n)) = range 1 (n + 1).
Proof.
  intro Hn. pattern n. apply natlike_ind; [| | exact Hn]; clear n Hn.
  - reflexivity.
  - intros n Hn IH. unfold Z.succ. rewrite run_succ by assumption.
    destruct (month_body_appends p (run p n) (n + 1))
      as (r & c & -> & _ & Hm & _).
    rewrite map_app, IH, (range_snoc 1 (n + 1)) by lia.
    cbn. now rewrite Hm.
Qed.

Lemma build_monthly_dataframe_months (p : Params) :
  map Month (build_monthly_dataframe p) = range 1 (months p + 1).
Proof.
  rewrite build_monthly_dataframe_run.
  destruct (Z.le_gt_cases 0 (months p)) as [Hm | Hm].
  - now apply rows_run_months.
  - rewrite run_nonpos, range_nil by lia. reflexivity.
Qed.

(** Exposes the fields of a row [r] of the result: finds the iteration that
    appended it and unfolds the loop body there. *)
Ltac emitted_row H :=
  let k := fresh "k" in
  let Hk := fresh "Hk" in
  let gross := fresh "gross" in
  let paying := fresh "paying" in
  let Hrec := fresh "Hrec" in
  apply In_build_inv in H; destruct H as (k & Hk & H);
  unfold month_body in H;
  match type of H with
  | context [let '(_, _) := ?scan in _] =>
      destruct scan as [gross paying] eqn:Hrec
  end;
  cbn [rows] in H; apply app_inj_tail in H; destruct H as [_ H];
  subst; cbn [Month New_Clients Cancellations Mode Net_Activations
              Signed_SMEs_Cumulative Paying_SMEs_this_month
              Client_Payments_Gross New_Sale_Income
              Commission_from_Clients Total_Monthly_Earnings].

(** C3.  In the row of month [m] the New Clients field is the override
    value when [m] is the override month and the override is on (its month
    is positive), and the default count otherwise; an override value of
    zero is used like any other. *)
Theorem new_clients_this_month_rule :
  forall (p : Params) (r : Row),
    In r (build_monthly_dataframe p) ->
    (override_month p = Month r /\ override_month p > 0 ->
     New_Clients r = override_new_clients p) /\
    (~ (override_month p = Month r /\ override_month p > 0) ->
     New_Clients r = default_new_clients p) /\
    (override_month p = Month r /\ override_month p > 0 ->
     override_new_clients p = 0 -> New_Clients r = 0).
Proof.
  intros p r Hr. emitted_row Hr.
  destruct (Z.eqb_spec (override_month p) (k + 1)) as [Heq | Hne];
    destruct (Z.gtb_spec (override_month p) 0) as [Hpos | Hoff];
    cbn [andb]; repeat split; intros; try lia; try reflexivity;
    try congruence; tauto.
Qed.

Lemma row_of_month_index (p : Params) (m : Z) :
  1 <= m <= months p ->
  (Z.to_nat (m - 1) < List.length (build_monthly_dataframe p))%nat.
Proof.
  intro Hm.
  rewrite <- (length_map Month), build_monthly_dataframe_months, range_length.
  lia.
Qed.

Lemma row_of_month_In (p : Params) (m : Z) :
  1 <= m <= months p ->
  In (row_of_month p m) (build_monthly_dataframe p).
Proof.
  intro Hm. unfold row_of_month. apply nth_In. now apply row_of_month_index.
Qed.

Lemma row_of_month_Month (p : Params) (m : Z) :
  1 <= m <= months p -> Month (row_of_month p m) = m.
Proof.
  intro Hm. pose proof (row_of_month_index p m Hm) as Hlen.
  unfold row_of_month.
  rewrite <- (map_nth Month (build_monthly_dataframe p) blank_row).
  rewrite <- (length_map Month) in Hlen.
  rewrite build_monthly_dataframe_months in *. unfold range in *.
  rewrite (nth_indep _ _ (1 + Z.of_nat 0)) by exact Hlen.
  rewrite length_map, length_seq in Hlen.
  rewrite (map_nth (fun i => 1 + Z.of_nat i)), seq_nth; lia.
Qed.

Lemma new_clients_this_month_rule_witness :
  New_Clients (row_of_month (with_override 3 0 form_defaults) 3) = 0 /\
  New_Clients (row_of_month (with_override 3 0 form_defaults) 4) = 12.
Proof.
  pose (p := with_override 3 0 form_defaults).
  assert (H3 : In (row_of_month p 3) (build_monthly_dataframe p))
    by (apply row_of_month_In; split; apply Z.leb_le; reflexivity).
  assert (H4 : In (row_of_month p 4) (build_monthly_dataframe p))
    by (apply row_of_month_In; split; apply Z.leb_le; reflexivity).
  destruct (new_clients_this_month_rule p _ H3) as (_ & _ & Hzero).
  destruct (new_clients_this_month_rule p _ H4) as (_ & Hdefault & _).
  split.
  - apply Hzero; [vm_compute; split; reflexivity | reflexivity].
  - apply Hdefault. vm_compute. intros [Heq _]. discriminate Heq.
Defined.

(** C2.  The New Sale Income of a row is nonzero only in a month where the
    bonus is payable (the policy includes the bonus, the bonus is in use,
    [payout_duration > 0] and the month is [<= payout_duration]); there it
    is the bonus amount times this month's new clients, times the
    commission rate when the payout type is the commissionable one and
    unchanged otherwise; and it is 0 in every other month. *)
Theorem new_sale_income_rule :
  forall (p : Params) (r : Row),
    In r (build_monthly_dataframe p) ->
    let bonus_raw := (new_sale_payout p * inject_Z (New_Clients r))%Q in
    (~ (New_Sale_Income r == 0)%Q -> bonus_payable p (Month r)) /\
    (bonus_payable p (Month r) ->
     payout_type p = "Commissionable (x%)"%string ->
     (New_Sale_Income r == bonus_raw * commission_rate p)%Q) /\
    (bonus_payable p (Month r) ->
     payout_type p <> "Commissionable (x%)"%string ->
     (New_Sale_Income r == bonus_raw)%Q) /\
    (~ bonus_payable p (Month r) -> (New_Sale_Income r == 0)%Q).
Proof.
  intros p r Hr. emitted_row Hr.
  unfold bonus_payable, include_bonus_of. cbn [existsb].
  destruct (String.eqb_spec (payout_policy p) "Bonus only (no recurring)");
    destruct (String.eqb_spec (payout_policy p) "Bonus + Recurring");
    destruct (use_new_sale_bonus p);
    destruct (Z.gtb_spec (payout_duration p) 0);
    destruct (Z.leb_spec (k + 1) (payout_duration p));
    destruct (String.eqb_spec (payout_type p) "Commissionable (x%)");
    cbn [orb andb]; repeat split; intros;
    try reflexivity; try congruence; try lia; try tauto;
    try (apply Qmult_0_l);
    try (exfalso; intuition (congruence || lia));
    try (match goal with H : ~ (_ == _)%Q |- _ => exfalso; apply H end;
         first [reflexivity | apply Qmult_0_l]).
Qed.

Lemma new_sale_income_rule_witness :
  (New_Sale_Income (row_of_month form_defaults 1) == 1536)%Q /\
  (New_Sale_Income (row_of_month form_defaults 2) == 0)%Q.
Proof.
  assert (H1 : In (row_of_month form_defaults 1)
                  (build_monthly_dataframe form_defaults))
    by (apply row_of_month_In; split; apply Z.leb_le; reflexivity).
  assert (H2 : In (row_of_month form_defaults 2)
                  (build_monthly_dataframe form_defaults))
    by (apply row_of_month_In; split; apply Z.leb_le; reflexivity).
  destruct (new_sale_income_rule form_defaults _ H1) as (_ & Hpaid & _).
  destruct (new_sale_income_rule form_defaults _ H2) as (_ & _ & _ & Hnone).
  split.
  - rewrite Hpaid.
    + vm_compute. reflexivity.
    + unfold bonus_payable. split; [right; reflexivity |].
      split; [reflexivity |].
      split; [reflexivity | apply Z.leb_le; reflexivity].
    + reflexivity.
  - apply Hnone. unfold bonus_payable.
    intros (_ & _ & _ & Hle). vm_compute in Hle. apply Hle. reflexivity.
Defined.

(** C4.  The policy partitions the earnings.  Under "Recurring only" the
    New Sale Income of every row is 0; under "Bonus only" its commission,
    gross client payments and paying-clients count are 0; and the total of
    a row is the bonus under "Bonus only", the commission under "Recurring
    only", and their sum under "Bonus + Recurring". *)
Theorem policy_partition :
  forall (p : Params) (r : Row),
    In r (build_monthly_dataframe p) ->
    (payout_policy p = "Recurring only (no bonus)"%string ->
     (New_Sale_Income r == 0)%Q /\
     (Total_Monthly_Earnings r == Commission_from_Clients r)%Q) /\
    (payout_policy p = "Bonus only (no recurring)"%string ->
     (Commission_from_Clients r == 0)%Q /\
     (Client_Payments_Gross r == 0)%Q /\
     (Paying_SMEs_this_month r == 0)%Q /\
     (Total_Monthly_Earnings r == New_Sale_Income r)%Q) /\
    (payout_policy p = "Bonus + Recurring"%string ->
     (Total_Monthly_Earnings r ==
      New_Sale_Income r + Commission_from_Clients r)%Q).
Proof.
  intros p r Hr. emitted_row Hr.
  split; [| split]; intro Hpolicy; rewrite Hpolicy in *;
    unfold include_bonus_of, include_recurring_of in *;
    cbn [existsb String.eqb Ascii.eqb Bool.eqb andb orb] in *.
  - split; [| reflexivity].
    destruct (String.eqb (payout_type p) "Commissionable (x%)");
      [apply Qmult_0_l | reflexivity].
  - injection Hrec as <- <-. repeat split; reflexivity.
  - reflexivity.
Qed.

Lemma policy_partition_witness :
  (New_Sale_Income
     (row_of_month (with_policy "Recurring only (no bonus)" form_defaults) 1)
   == 0)%Q /\
  (Commission_from_Clients
     (row_of_month (with_policy "Bonus only (no recurring)" form_defaults) 5)
   == 0)%Q /\
  (Total_Monthly_Earnings (row_of_month form_defaults 1) ==
   New_Sale_Income (row_of_month form_defaults 1) +
   Commission_from_Clients (row_of_month form_defaults 1))%Q.
Proof.
  pose (rec_only := with_policy "Recurring only (no bonus)" form_defaults).
  pose (bonus_only := with_policy "Bonus only (no recurring)" form_defaults).
  assert (H1 : In (row_of_month rec_only 1) (build_monthly_dataframe rec_only))
    by (apply row_of_month_In; split; apply Z.leb_le; reflexivity).
  assert (H2 : In (row_of_month bonus_only 5)
                  (build_monthly_dataframe bonus_only))
    by (apply row_of_month_In; split; apply Z.leb_le; reflexivity).
  assert (H3 : In (row_of_month form_defaults 1)
                  (build_monthly_dataframe form_defaults))
    by (apply row_of_month_In; split; apply Z.leb_le; reflexivity).
  destruct (policy_partition rec_only _ H1) as (Hrec & _).
  destruct (policy_partition bonus_only _ H2) as (_ & Hbonus & _).
  destruct (policy_partition form_defaults _ H3) as (_ & _ & Hboth).
  split; [| split].
  - apply Hrec. reflexivity.
  - apply Hbonus. reflexivity.
  - apply Hboth. reflexivity.
Defined.

(** C9.  The engine is a function of its parameters, and the currency
    label is not one it reads: equal parameter sets give equal rows, and
    replacing the currency of a parameter set leaves every row unchanged. *)
Theorem currency_is_a_label_only :
  forall p1 p2 : Params,
    (p1 = p2 -> build_monthly_dataframe p1 = build_monthly_dataframe p2) /\
    (forall c : string,
        build_monthly_dataframe (with_currency c p1) =
        build_monthly_dataframe p1).
Proof.
  intros p1 p2. split.
  - intros ->. reflexivity.
  - intro c. reflexivity.
Qed.

Lemma currency_is_a_label_only_witness :
  build_monthly_dataframe (with_currency "EUR" form_defaults) =
  build_monthly_dataframe (with_currency "USD" form_defaults).
Proof.
  destruct (currency_is_a_label_only
              (with_currency "EUR" form_defaults)
              (with_currency "EUR" (with_currency "USD" form_defaults)))
    as (Hsame & _).
  destruct (currency_is_a_label_only
              (with_currency "USD" form_defaults) form_defaults)
    as (_ & Hlabel).
  rewrite Hsame by reflexivity. apply Hlabel.
Defined.

(** C1.  Scenario: horizon 3, Fixed mode with 0 cancellations, unlimited
    lifetime, flat contract of 100 with no free months, commission 50%,
    "Recurring only" policy, 1 new client per month, no override.  Whatever
    the remaining parameters, the three rows have gross client payments 100,
    200, 300 and commission from clients 50, 100, 150. *)
Theorem scenario_flat_recurring_only :
  forall (override_count : Z) (churn : Q) (payout_kind : string)
         (use_bonus : bool) (bonus : Q) (duration intro_len : Z)
         (intro recurring : Q) (life_mode label : string),
    let p :=
      {| months := 3;
         default_new_clients := 1;
         override_month := 0;
         override_new_clients := override_count;
         cancellations_mode := "Fixed";
         cancellations := 0;
         churn_percent := churn;
         commission_rate := 1 # 2;
         payout_policy := "Recurring only (no bonus)";
         payout_type := payout_kind;
         use_new_sale_bonus := use_bonus;
         new_sale_payout := bonus;
         payout_duration := duration;
         contract_type := "Flat Monthly";
         free_months := 0;
         intro_months := intro_len;
         intro_amount := intro;
         recurring_amount := recurring;
         flat_amount := 100;
         lifetime_months := 0;
         lifetime_mode := life_mode;
         currency := label |} in
    map Month (build_monthly_dataframe p) = [1; 2; 3] /\
    Forall2 Qeq (map Client_Payments_Gross (build_monthly_dataframe p))
            [100; 200; 300]%Q /\
    Forall2 Qeq (map Commission_from_Clients (build_monthly_dataframe p))
            [50; 100; 150]%Q.
Proof.
  intros. subst p. split; [| split].
  - vm_compute. reflexivity.
  - vm_compute. repeat constructor.
  - vm_compute. repeat constructor.
Qed.

(** ** Signs *)

Lemma Qplus_nonneg (a b : Q) : (0 <= a)%Q -> (0 <= b)%Q -> (0 <= a + b)%Q.
Proof. intros Ha Hb. exact (Qplus_le_compat 0 a 0 b Ha Hb). Qed.

Lemma Qlt_bool_true (x y : Q) : Qlt_bool x y = true -> (x < y)%Q.
Proof.
  unfold Qlt_bool. intro H. apply negb_true_iff in H.
  apply Qnot_le_lt. intro Hle. apply Qle_bool_iff in Hle. congruence.
Qed.

Lemma churn_rate_of_bounds (churn_percent : Q) :
  (0 <= churn_rate_of churn_percent)%Q /\
  (churn_rate_of churn_percent <= 99 # 100)%Q.
Proof.
  unfold churn_rate_of. split.
  - apply Q.le_max_r.
  - apply Q.max_lub; [apply Q.le_min_r | discriminate].
Qed.

Lemma survival_factor_nonneg (churn_rate : Q) (churn_age : Z) :
  (churn_rate <= 1)%Q -> (0 <= survival_factor churn_rate churn_age)%Q.
Proof.
  intro Hr. unfold survival_factor.
  destruct (Qle_bool churn_rate 0 || (churn_age <=? 0)); [discriminate |].
  apply Qpower_0_le. unfold Qminus. rewrite <- Qle_minus_iff. exact Hr.
Qed.

Lemma cohort_body_nonneg (p : Params) (m : Z) (acc : Q * Q) (c : Cohort) :
  0 <= size c ->
  (0 <= fst acc)%Q /\ (0 <= snd acc)%Q ->
  (0 <= fst (cohort_body p m acc c))%Q /\
  (0 <= snd (cohort_body p m acc c))%Q.
Proof.
  intros Hsize Hacc. destruct acc as [gross paying]. unfold cohort_body.
  destruct (m - birth c <? 0); [exact Hacc |].
  destruct (negb _); [exact Hacc |].
  destruct (Qlt_bool 0 _) eqn:Hprice; [| exact Hacc].
  apply Qlt_bool_true in Hprice. cbn [fst snd] in *.
  assert (Hactive :
    (0 <= inject_Z (size c) *
          (if String.eqb (cancellations_mode p) "Churn"
           then survival_factor (churn_rate_of (churn_percent p))
                  (if String.eqb (lifetime_mode p) "From activation"
                   then m - birth c
                   else Z.max (m - birth c - free_months p) 0)
           else 1))%Q).
  { apply Qmult_le_0_compat.
    - rewrite <- (Zle_Qle 0). exact Hsize.
    - destruct (String.eqb (cancellations_mode p) "Churn"); [| discriminate].
      apply survival_factor_nonneg.
      apply Qle_trans with (99 # 100)%Q;
        [apply churn_rate_of_bounds | discriminate]. }
  split.
  - apply Qplus_nonneg; [tauto |].
    apply Qmult_le_0_compat; [apply Qlt_le_weak; exact Hprice | exact Hactive].
  - apply Qplus_nonneg; [tauto | exact Hactive].
Qed.

Lemma cohort_scan_nonneg (p : Params) (m : Z) (cs : list Cohort) :
  Forall (fun c => 0 <= size c) cs ->
  forall acc : Q * Q,
    (0 <= fst acc)%Q /\ (0 <= snd acc)%Q ->
    (0 <= fst (fold_left (cohort_body p m) cs acc))%Q /\
    (0 <= snd (fold_left (cohort_body p m) cs acc))%Q.
Proof.
  induction 1 as [| c cs Hc _ IH]; intros acc Hacc; cbn [fold_left].
  - exact Hacc.
  - apply IH. now apply cohort_body_nonneg.
Qed.

Lemma nondecreasing_snoc (column : Row -> Z) (df : list Row) (r : Row)
      (bound : Z) :
  nondecreasing column df ->
  Forall (fun r' => column r' <= bound) df ->
  bound <= column r ->
  nondecreasing column (df ++ [r]).
Proof.
  intros Hstep Hbound Hr i r1 r2 H1 H2.
  destruct (Nat.lt_ge_cases (S i) (List.length df)) as [Hin | Hout].
  - rewrite nth_error_app1 in H1, H2 by lia. eapply Hstep; eassumption.
  - rewrite nth_error_app2 in H2 by lia.
    destruct (S i - List.length df)%nat as [| j] eqn:Hpos.
    + injection H2 as <-.
      rewrite nth_error_app1 in H1 by lia.
      apply nth_error_In in H1.
      rewrite Forall_forall in Hbound. specialize (Hbound r1 H1). lia.
    + destruct j; discriminate H2.
Qed.

(** One iteration keeps the invariant, given nonnegative client counts,
    commission rate and bonus amount. *)
Lemma month_body_invariant (p : Params) (st : LoopState) (m : Z) :
  (0 <= commission_rate p)%Q ->
  (0 <= new_sale_payout p)%Q ->
  0 <= default_new_clients p ->
  0 <= override_new_clients p ->
  loop_invariant st -> loop_invariant (month_body p st m).
Proof.
  intros Hrate Hpayout Hdefault Hoverride [Hcs Hcum Hrows Hbound Hstep].
  unfold month_body. cbv zeta.
  set (new := if (override_month p =? m) && (override_month p >? 0)
              then override_new_clients p else default_new_clients p).
  set (net := if String.eqb (cancellations_mode p) "Fixed"
              then Z.max (new - cancellations p) 0 else new).
  assert (Hnew : 0 <= new) by (subst new; destruct (_ && _); assumption).
  assert (Hnet : 0 <= net)
    by (subst net; destruct (String.eqb _ _); lia).
  assert (Hcs' : Forall (fun c => 0 <= size c)
                        (cohorts st ++ [{| birth := m; size := net |}])).
  { apply Forall_app. split; [exact Hcs |]. repeat constructor. exact Hnet. }
  set (scan := if include_recurring_of (payout_policy p)
               then fold_left (cohort_body p m)
                      (cohorts st ++ [{| birth := m; size := net |}])
                      (0%Q, 0%Q)
               else (0%Q, 0%Q)).
  assert (Hscan : (0 <= fst scan)%Q /\ (0 <= snd scan)%Q).
  { subst scan. destruct (include_recurring_of _).
    - apply cohort_scan_nonneg; [exact Hcs' | split; apply Qle_refl].
    - split; apply Qle_refl. }
  destruct scan as [gross paying]. cbn [fst snd] in Hscan.
  destruct Hscan as [Hgross Hpaying].
  set (commission := if include_recurring_of (payout_policy p)
                     then (gross * commission_rate p)%Q else 0%Q).
  set (bonus_raw := if include_bonus_of (payout_policy p)
                       && use_new_sale_bonus p
                       && (payout_duration p >? 0) && (m <=? payout_duration p)
                    then (new_sale_payout p * inject_Z new)%Q else 0%Q).
  set (bonus := if String.eqb (payout_type p) "Commissionable (x%)"
                then (bonus_raw * commission_rate p)%Q else bonus_raw).
  assert (Hcommission : (0 <= commission)%Q).
  { subst commission.
    destruct (include_recurring_of (payout_policy p)); [| apply Qle_refl].
    apply Qmult_le_0_compat; assumption. }
  assert (Hraw : (0 <= bonus_raw)%Q).
  { subst bonus_raw.
    destruct (include_bonus_of (payout_policy p) && use_new_sale_bonus p
              && (payout_duration p >? 0) && (m <=? payout_duration p));
      [| apply Qle_refl].
    apply Qmult_le_0_compat; [exact Hpayout |].
    rewrite <- (Zle_Qle 0). exact Hnew. }
  assert (Hbonus : (0 <= bonus)%Q).
  { subst bonus.
    destruct (String.eqb (payout_type p) "Commissionable (x%)");
      [| exact Hraw].
    apply Qmult_le_0_compat; assumption. }
  constructor; cbn [rows cohorts signed_cum].
  - exact Hcs'.
  - lia.
  - apply Forall_app. split; [exact Hrows |].
    constructor; [| constructor].
    constructor; cbn; try assumption; try lia.
    destruct (String.eqb (payout_policy p) "Bonus only (no recurring)");
      [exact Hbonus |].
    destruct (String.eqb (payout_policy p) "Recurring only (no bonus)");
      [exact Hcommission |].
    apply Qplus_nonneg; assumption.
  - apply Forall_app. split.
    + eapply Forall_impl; [| exact Hbound]. cbn. intros r Hr. lia.
    + repeat constructor. cbn. lia.
  - apply nondecreasing_snoc with (bound := signed_cum st);
      [exact Hstep | exact Hbound | cbn; lia].
Qed.

Lemma initial_state_invariant : loop_invariant initial_state.
Proof.
  constructor; cbn; try constructor; try lia.
  intros [| i] r1 r2 H1; discriminate H1.
Qed.

Lemma run_invariant (p : Params) (n : Z) :
  (0 <= commission_rate p)%Q ->
  (0 <= new_sale_payout p)%Q ->
  0 <= default_new_clients p ->
  0 <= override_new_clients p ->
  loop_invariant (run p n).
Proof.
  intros Hrate Hpayout Hdefault Hoverride.
  destruct (Z.le_gt_cases 0 n) as [Hn | Hn].
  - pattern n. apply natlike_ind; [| | exact Hn]; clear n Hn.
    + apply initial_state_invariant.
    + intros n Hn IH. unfold Z.succ. rewrite run_succ by assumption.
      now apply month_body_invariant.
  - rewrite run_nonpos by lia. apply initial_state_invariant.
Qed.

(** C10.  Under the constraints of the input form, every row has
    nonnegative net activations, cumulative signed clients, paying clients,
    gross client payments, new-sale income, commission and total, and the
    cumulative signed clients never decrease from one month to the next. *)
Theorem rows_nonnegative_and_signed_nondecreasing :
  forall p : Params,
    valid_params p ->
    Forall row_nonneg (build_monthly_dataframe p) /\
    nondecreasing Signed_SMEs_Cumulative (build_monthly_dataframe p).
Proof.
  intros p Hvalid. rewrite build_monthly_dataframe_run.
  destruct (run_invariant p (months p)) as [_ _ Hrows _ Hstep];
    try apply Hvalid.
  split; assumption.
Qed.

Lemma rows_nonnegative_and_signed_nondecreasing_witness :
  Forall row_nonneg (build_monthly_dataframe churn_defaults) /\
  nondecreasing Signed_SMEs_Cumulative (build_monthly_dataframe churn_defaults).
Proof.
  apply (rows_nonnegative_and_signed_nondecreasing churn_defaults).
  constructor; cbn; try lia; try discriminate; split; discriminate.
Defined.

(** ** Yearly totals *)

(** *** Strictly ascending lists of integers *)

Lemma ascending_unique (l1 l2 : list Z) :
  StronglySorted Z.lt l1 -> StronglySorted Z.lt l2 ->
  (forall x, In x l1 <-> In x l2) -> l1 = l2.
Proof.
  intro H1. revert l2.
  induction H1 as [| a l1 Hs1 IH Ha]; intros l2 H2 Hsame.
  - destruct l2 as [| b l2]; [reflexivity |].
    destruct (proj2 (Hsame b) (or_introl eq_refl)).
  - destruct H2 as [| b l2 Hs2 Hb].
    + destruct (proj1 (Hsame a) (or_introl eq_refl)).
    + rewrite Forall_forall in Ha, Hb.
      assert (Hab : a = b).
      { destruct (proj1 (Hsame a) (or_introl eq_refl)) as [Heq | Hin];
          [congruence |].
        destruct (proj2 (Hsame b) (or_introl eq_refl)) as [Heq | Hin'];
          [congruence |].
        specialize (Ha b Hin'). specialize (Hb a Hin). lia. }
      subst b. f_equal. apply IH; [exact Hs2 |].
      intro x. split; intro Hx.
      * destruct (proj1 (Hsame x) (or_intror Hx)) as [Heq | Hin];
          [| exact Hin].
        specialize (Ha x Hx). lia.
      * destruct (proj2 (Hsame x) (or_intror Hx)) as [Heq | Hin];
          [| exact Hin].
        specialize (Hb x Hx). lia.
Qed.

Lemma ascending_filter (f : Z -> bool) (l : list Z) :
  StronglySorted Z.lt l -> StronglySorted Z.lt (filter f l).
Proof.
  induction 1 as [| a l Hs IH Ha]; cbn [filter]; [constructor |].
  destruct (f a); [| exact IH].
  constructor; [exact IH |].
  rewrite Forall_forall in *. intros x Hx. apply filter_In in Hx.
  apply Ha. tauto.
Qed.

Lemma range_cons (lo hi : Z) :
  lo < hi -> range lo hi = lo :: range (lo + 1) hi.
Proof.
  intro H. unfold range.
  replace (Z.to_nat (hi - lo)) with (S (Z.to_nat (hi - (lo + 1)))) by lia.
  cbn [seq map]. f_equal; [lia |].
  rewrite <- seq_shift, map_map. apply map_ext. intro i. lia.
Qed.

Lemma range_ascending (lo hi : Z) : StronglySorted Z.lt (range lo hi).
Proof.
  remember (Z.to_nat (hi - lo)) as n eqn:Hn. revert lo Hn.
  induction n as [| n IH]; intros lo Hn.
  - rewrite range_nil by lia. constructor.
  - rewrite range_cons by lia. constructor.
    + apply IH. lia.
    + apply Forall_forall. intros x Hx. apply In_range in Hx. lia.
Qed.

(** Filtering a range by a test that holds exactly on an interval leaves
    the part of the range inside the interval. *)
Lemma filter_range_interval (f : Z -> bool) (lo hi a b : Z) :
  (forall m, lo <= m < hi -> (f m = true <-> a <= m < b)) ->
  filter f (range lo hi) = range (Z.max lo a) (Z.min hi b).
Proof.
  intro Hf. apply ascending_unique.
  - apply ascending_filter, range_ascending.
  - apply range_ascending.
  - intro x. rewrite filter_In, !In_range. split.
    + intros [Hx Hfx]. apply (Hf x Hx) in Hfx. lia.
    + intro Hx. assert (Hr : lo <= x < hi) by lia.
      split; [exact Hr |]. apply (Hf x Hr). lia.
Qed.

(** *** Summing a column *)

Lemma Qsum_app (l1 l2 : list Q) : (Qsum (l1 ++ l2) == Qsum l1 + Qsum l2)%Q.
Proof.
  induction l1 as [| x l1 IH]; cbn.
  - now rewrite Qplus_0_l.
  - fold (Qsum (l1 ++ l2)). fold (Qsum l1). rewrite IH. apply Qplus_assoc.
Qed.

Lemma months_of_year_snoc (y : Z) (df : list Row) (r : Row) :
  months_of_year y (df ++ [r]) =
  months_of_year y df ++ (if year_of r =? y then [r] else []).
Proof. unfold months_of_year. rewrite filter_app. reflexivity. Qed.

Lemma months_of_year_absent (y : Z) (df : list Row) :
  ~ In y (map year_of df) -> months_of_year y df = [].
Proof.
  intro Hy. unfold months_of_year.
  induction df as [| r df IH]; cbn; [reflexivity |].
  destruct (Z.eqb_spec (year_of r) y) as [Heq | Hne].
  - exfalso. apply Hy. left. exact Heq.
  - apply IH. intro Hin. apply Hy. right. exact Hin.
Qed.

Lemma yearly_open_group (k : Metric) (y : Z) (r : Row) :
  yearly k (open_group y r) = (0 + monthly k r)%Q.
Proof. destruct k; reflexivity. Qed.

Lemma yearly_extend_group (k : Metric) (g : YearRow) (r : Row) :
  yearly k (extend_group g r) = (yearly k g + monthly k r)%Q.
Proof. destruct k; reflexivity. Qed.

(** *** Filing a row under its year *)

Lemma group_add_keys (y : Z) (r : Row) (acc : list YearRow) (y' : Z) :
  In y' (map Year (group_add y r acc)) <-> y' = y \/ In y' (map Year acc).
Proof.
  induction acc as [| g rest IH]; cbn.
  - intuition congruence.
  - destruct (Z.ltb_spec y (Year g)); [cbn; intuition congruence |].
    destruct (Z.eqb_spec y (Year g)); cbn; [intuition congruence |].
    rewrite IH. tauto.
Qed.

Lemma group_add_ascending (y : Z) (r : Row) (acc : list YearRow) :
  StronglySorted Z.lt (map Year acc) ->
  StronglySorted Z.lt (map Year (group_add y r acc)).
Proof.
  induction acc as [| g rest IH]; cbn; intro Hs.
  - repeat constructor.
  - apply StronglySorted_inv in Hs. destruct Hs as [Hrest Hfirst].
    destruct (Z.ltb_spec y (Year g)) as [Hlt | Hge]; cbn.
    + constructor; [constructor; assumption |].
      constructor; [exact Hlt |].
      eapply Forall_impl; [| exact Hfirst]. cbn. intros. lia.
    + destruct (Z.eqb_spec y (Year g)) as [Heq | Hne]; cbn.
      * constructor; assumption.
      * constructor; [apply IH; exact Hrest |].
        rewrite Forall_forall in *. intros y' Hy'.
        apply group_add_keys in Hy'. destruct Hy' as [-> | Hy'];
          [lia | now apply Hfirst].
Qed.

(** Where an entry of the updated accumulator comes from: it is an old
    entry of another year, or the old entry of year [y] extended by [r], or
    a new entry opened for a year [y] that had none. *)
Lemma group_add_In (y : Z) (r : Row) (acc : list YearRow) (g' : YearRow) :
  StronglySorted Z.lt (map Year acc) ->
  In g' (group_add y r acc) ->
  (In g' acc /\ Year g' <> y) \/
  (exists g, In g acc /\ Year g = y /\ g' = extend_group g r) \/
  (~ In y (map Year acc) /\ g' = open_group y r).
Proof.
  induction acc as [| g rest IH]; cbn; intros Hs Hin.
  - destruct Hin as [<- | []]. right. right. tauto.
  - apply StronglySorted_inv in Hs. destruct Hs as [Hrest Hfirst].
    rewrite Forall_forall in Hfirst.
    destruct (Z.ltb_spec y (Year g)) as [Hlt | Hge].
    + destruct Hin as [<- | [<- | Hin]].
      * right. right. split; [| reflexivity].
        intros [Heq | Hy]; [lia |]. specialize (Hfirst y Hy). lia.
      * left. split; [tauto | lia].
      * left. split; [tauto |].
        specialize (Hfirst (Year g') (in_map Year _ _ Hin)). lia.
    + destruct (Z.eqb_spec y (Year g)) as [Heq | Hne].
      * destruct Hin as [<- | Hin].
        -- right. left. exists g. split; [tauto |]. split; congruence.
        -- left. split; [tauto |].
           specialize (Hfirst (Year g') (in_map Year _ _ Hin)). lia.
      * destruct Hin as [<- | Hin]; [left; split; [tauto | congruence] |].
        destruct (IH Hrest Hin) as [[Hold Hy] | [(g0 & Hg0 & Hy & Hext) | [Hnew Hopen]]].
        -- left. tauto.
        -- right. left. exists g0. tauto.
        -- right. right. split; [| exact Hopen].
           intros [Heq | Hy]; [congruence | tauto].
Qed.

Lemma groupby_year_sum_snoc (df : list Row) (r : Row) :
  groupby_year_sum (df ++ [r]) =
  group_add (year_of r) r (groupby_year_sum df).
Proof. unfold groupby_year_sum. now rewrite fold_left_app. Qed.

(** The accumulator groups the rows read so far. *)
Lemma groupby_year_sum_grouped (df : list Row) :
  grouped df (groupby_year_sum df).
Proof.
  induction df as [| r df IH] using rev_ind.
  - constructor; cbn; [constructor | tauto | intros g k []].
  - destruct IH as [Hsorted Hkeys Hsums].
    rewrite groupby_year_sum_snoc. constructor.
    + now apply group_add_ascending.
    + intro y. rewrite group_add_keys, Hkeys, map_app, in_app_iff. cbn.
      intuition congruence.
    + intros g' k Hg'. rewrite months_of_year_snoc, map_app, Qsum_app.
      apply group_add_In in Hg'; [| exact Hsorted].
      destruct Hg' as [[Hold Hy] | [(g & Hg & Hy & ->) | [Hnew ->]]].
      * destruct (Z.eqb_spec (year_of r) (Year g')); [congruence |].
        cbn. rewrite Qplus_0_r. now apply Hsums.
      * rewrite yearly_extend_group. cbn [Year extend_group].
        rewrite Hy, Z.eqb_refl. cbn. rewrite Qplus_0_r.
        rewrite (Hsums g k Hg), Hy. reflexivity.
      * rewrite yearly_open_group. cbn [Year open_group].
        rewrite Z.eqb_refl. cbn. rewrite Qplus_0_r.
        rewrite months_of_year_absent by (rewrite <- Hkeys; exact Hnew).
        reflexivity.
Qed.

(** *** The years of the engine's rows *)

Lemma filter_map_swap {A B : Type} (f : A -> B) (g : B -> bool) (l : list A) :
  filter g (map f l) = map f (filter (fun x => g (f x)) l).
Proof.
  induction l as [| x l IH]; cbn; [reflexivity |].
  destruct (g (f x)); cbn; now rewrite IH.
Qed.

Lemma build_monthly_dataframe_years (p : Params) (y : Z) :
  1 <= months p ->
  In y (map year_of (build_monthly_dataframe p)) <->
  1 <= y <= (months p - 1) / 12 + 1.
Proof.
  intro Hn.
  replace (map year_of (build_monthly_dataframe p))
    with (map (fun m => (m - 1) / 12 + 1)
              (map Month (build_monthly_dataframe p)))
    by (rewrite map_map; reflexivity).
  rewrite build_monthly_dataframe_months, in_map_iff. split.
  - intros (m & <- & Hm). apply In_range in Hm.
    Z.div_mod_to_equations. lia.
  - intro Hy. exists (12 * (y - 1) + 1). split.
    + Z.div_mod_to_equations. lia.
    + apply In_range. Z.div_mod_to_equations. lia.
Qed.

Lemma months_of_year_members (p : Params) (y : Z) :
  1 <= y ->
  map Month (months_of_year y (build_monthly_dataframe p)) =
  range (12 * (y - 1) + 1) (Z.min (12 * y) (months p) + 1).
Proof.
  intro Hy. unfold months_of_year, year_of.
  rewrite <- (filter_map_swap Month (fun m => (m - 1) / 12 + 1 =? y)).
  rewrite build_monthly_dataframe_months.
  rewrite (filter_range_interval _ 1 (months p + 1)
             (12 * (y - 1) + 1) (12 * y + 1)).
  - f_equal; lia.
  - intros m Hm. rewrite Z.eqb_eq. Z.div_mod_to_equations. lia.
Qed.

(** C8.  For the rows of a projection over at least one month,
    [yearly_totals] returns one row per year, for the years 1 to
    [(months - 1) / 12 + 1] in ascending order; the row of month [m] is
    filed under year [(m - 1) / 12 + 1]; the months filed under year [y] are
    [12 (y - 1) + 1 .. min (12 y) months], between 1 and 12 of them; and
    each of the four totals of a year is the sum of that column over those
    months. *)
Theorem yearly_totals_sum_identity :
  forall p : Params,
    1 <= months p ->
    exists yt : list YearRow,
      yearly_totals (build_monthly_dataframe p) = Some yt /\
      map Year yt = range 1 ((months p - 1) / 12 + 2) /\
      Forall (fun r => In ((Month r - 1) / 12 + 1) (map Year yt))
             (build_monthly_dataframe p) /\
      forall g : YearRow,
        In g yt ->
        let members := months_of_year (Year g) (build_monthly_dataframe p) in
        map Month members =
          range (12 * (Year g - 1) + 1)
                (Z.min (12 * Year g) (months p) + 1) /\
        (1 <= List.length members <= 12)%nat /\
        forall k : Metric,
          (yearly k g == Qsum (map (monthly k) members))%Q.
Proof.
  intros p Hn.
  destruct (groupby_year_sum_grouped (build_monthly_dataframe p))
    as [Hsorted Hkeys Hsums].
  exists (groupby_year_sum (build_monthly_dataframe p)).
  assert (Hyears : map Year (groupby_year_sum (build_monthly_dataframe p)) =
                   range 1 ((months p - 1) / 12 + 2)).
  { apply ascending_unique; [exact Hsorted | apply range_ascending |].
    intro y. rewrite Hkeys, build_monthly_dataframe_years, In_range by exact Hn.
    lia. }
  split; [| split; [exact Hyears | split]].
  - destruct (build_monthly_dataframe p) as [| r df] eqn:Hdf;
      [| reflexivity].
    pose proof (build_monthly_dataframe_months p) as Hmonths.
    rewrite Hdf, range_cons in Hmonths by lia. discriminate Hmonths.
  - apply Forall_forall. intros r Hr. apply Hkeys.
    apply (in_map year_of) in Hr. exact Hr.
  - intros g Hg members. subst members.
    assert (Hy : 1 <= Year g <= (months p - 1) / 12 + 1).
    { apply (in_map Year) in Hg. rewrite Hyears in Hg.
      apply In_range in Hg. lia. }
    pose proof (months_of_year_members p (Year g) (proj1 Hy)) as Hmembers.
    split; [exact Hmembers | split].
    + rewrite <- (length_map Month), Hmembers, range_length.
      Z.div_mod_to_equations. lia.
    + intro k. now apply Hsums.
Qed.

Lemma yearly_totals_sum_identity_witness :
  exists yt : list YearRow,
    yearly_totals (build_monthly_dataframe form_defaults) = Some yt /\
    map Year yt = [1].
Proof.
  destruct (yearly_totals_sum_identity form_defaults)
    as (yt & Hsome & Hyears & _).
  - cbn. lia.
  - exists yt. split; [exact Hsome | exact Hyears].
Defined.

(** * Further properties *)

(** ** Shape of the monthly table *)

Lemma build_monthly_dataframe_length (p : Params) :
  List.length (build_monthly_dataframe p) = Z.to_nat (months p).
Proof.
  rewrite <- (length_map Month), build_monthly_dataframe_months, range_length.
  lia.
Qed.

(** X1.  The table has one row per month, for the months 1 to [months] in
    order; a horizon of zero or less gives the empty table. *)
Theorem monthly_table_shape :
  forall p : Params,
    map Month (build_monthly_dataframe p) = range 1 (months p + 1) /\
    List.length (build_monthly_dataframe p) = Z.to_nat (months p) /\
    (months p <= 0 <-> build_monthly_dataframe p = []).
Proof.
  intro p.
  pose proof (build_monthly_dataframe_length p) as Hlen.
  split; [apply build_monthly_dataframe_months | split; [exact Hlen |]].
  split; intro H.
  - apply length_zero_iff_nil. lia.
  - rewrite H in Hlen. cbn in Hlen. lia.
Qed.

Lemma Zsum_app (l1 l2 : list Z) : Zsum (l1 ++ l2) = Zsum l1 + Zsum l2.
Proof.
  unfold Zsum. induction l1 as [| x l1 IH]; cbn [app fold_right]; lia.
Qed.

(** The cohort list mirrors the rows: one cohort per month, born in that
    month with the month's net activations, and [signed_cum] is their sum. *)
Lemma run_cohorts (p : Params) (n : Z) :
  map birth (cohorts (run p n)) = map Month (rows (run p n)) /\
  map size (cohorts (run p n)) = map Net_Activations (rows (run p n)) /\
  signed_cum (run p n) = Zsum (map Net_Activations (rows (run p n))).
Proof.
  destruct (Z.le_gt_cases 0 n) as [Hn | Hn];
    [| rewrite run_nonpos by lia; repeat split].
  pattern n. apply natlike_ind; [| | exact Hn]; clear n Hn.
  - repeat split.
  - intros n Hn (Hbirth & Hsize & Hsum). unfold Z.succ.
    rewrite run_succ by assumption.
    destruct (month_body_appends p (run p n) (n + 1))
      as (r & c & -> & -> & Hm & Hb & Hs & -> & _).
    rewrite !map_app, Hbirth, Hsize, Hsum. cbn [map].
    rewrite Hm, Hb, Hs. repeat split.
    rewrite Zsum_app. cbn. lia.
Qed.

Lemma rows_run_length (p : Params) (n : Z) :
  0 <= n -> List.length (rows (run p n)) = Z.to_nat n.
Proof.
  intro Hn. rewrite <- (length_map Month), rows_run_months, range_length by lia.
  lia.
Qed.

(** The rows of the first [n] months are a prefix of the rows of any
    longer run. *)
Lemma rows_run_prefix (p : Params) (n N : Z) :
  0 <= n <= N -> rows (run p n) = firstn (Z.to_nat n) (rows (run p N)).
Proof.
  intros [Hn HnN]. pattern N.
  apply Zlt_lower_bound_ind with (z := n); [| exact HnN].
  clear N HnN. intros N IH HnN.
  destruct (Z.eq_dec N n) as [-> | Hne].
  - rewrite <- (rows_run_length p n) by lia. now rewrite firstn_all.
  - replace N with (N - 1 + 1) by lia. rewrite run_succ by lia.
    destruct (month_body_appends p (run p (N - 1)) (N - 1 + 1))
      as (r & c & -> & _).
    rewrite firstn_app, rows_run_length by lia.
    replace (Z.to_nat n - Z.to_nat (N - 1))%nat with 0%nat by lia.
    cbn [firstn]. rewrite app_nil_r. apply IH; lia.
Qed.

(** The row at index [i] of the result is the one the iteration of month
    [i + 1] appended, and the rows up to it are the rows of the run over
    [i + 1] months. *)
Lemma nth_row_emitted (p : Params) (i : nat) (r : Row) :
  nth_error (build_monthly_dataframe p) i = Some r ->
  Z.of_nat i < months p /\
  rows (month_body p (run p (Z.of_nat i)) (Z.of_nat i + 1)) =
    rows (run p (Z.of_nat i)) ++ [r] /\
  firstn (S i) (build_monthly_dataframe p) = rows (run p (Z.of_nat i + 1)).
Proof.
  intro Hi.
  assert (Hlen : (i < List.length (build_monthly_dataframe p))%nat)
    by (apply nth_error_Some; congruence).
  rewrite build_monthly_dataframe_length in Hlen.
  assert (Hprefix : firstn (S i) (build_monthly_dataframe p) =
                    rows (run p (Z.of_nat i + 1))).
  { rewrite build_monthly_dataframe_run.
    rewrite (rows_run_prefix p (Z.of_nat i + 1) (months p)) by lia.
    f_equal. lia. }
  split; [lia | split; [| exact Hprefix]].
  destruct (month_body_appends p (run p (Z.of_nat i)) (Z.of_nat i + 1))
    as (r' & c & Hrows & _).
  rewrite Hrows. do 2 f_equal.
  assert (Hnth : nth_error (firstn (S i) (build_monthly_dataframe p)) i = Some r).
  { rewrite nth_error_firstn.
    destruct (Nat.ltb_spec i (S i)); [exact Hi | lia]. }
  rewrite Hprefix, run_succ, Hrows in Hnth by lia.
  rewrite nth_error_app2 in Hnth by (rewrite rows_run_length; lia).
  rewrite rows_run_length in Hnth by lia.
  replace (i - Z.to_nat (Z.of_nat i))%nat with 0%nat in Hnth by lia.
  cbn in Hnth. congruence.
Qed.

(** X2.  Conservation of activations.  The Net Activations of a row are
    [max (New Clients - cancellations) 0] in Fixed mode and the New Clients
    themselves in any other mode, and the Signed SMEs (Cumulative) of the
    row at index [i] is the sum of the Net Activations of the rows up to
    and including it. *)
Theorem signed_is_running_sum_of_net_activations :
  forall (p : Params) (i : nat) (r : Row),
    nth_error (build_monthly_dataframe p) i = Some r ->
    Net_Activations r =
      (if String.eqb (cancellations_mode p) "Fixed"
       then Z.max (New_Clients r - cancellations p) 0
       else New_Clients r) /\
    Signed_SMEs_Cumulative r =
      Zsum (map Net_Activations (firstn (S i) (build_monthly_dataframe p))).
Proof.
  intros p i r Hi. split.
  - apply nth_error_In in Hi. emitted_row Hi. reflexivity.
  - destruct (nth_row_emitted p i r Hi) as (Hlt & Hrows & ->).
    destruct (run_cohorts p (Z.of_nat i + 1)) as (_ & _ & <-).
    rewrite run_succ by lia.
    destruct (month_body_appends p (run p (Z.of_nat i)) (Z.of_nat i + 1))
      as (r' & c & Hrows' & _ & _ & _ & _ & _ & Hsigned).
    rewrite Hrows in Hrows'. apply app_inj_tail in Hrows'.
    destruct Hrows' as [_ ->]. exact Hsigned.
Qed.

Lemma signed_is_running_sum_of_net_activations_witness :
  Signed_SMEs_Cumulative (row_of_month form_defaults 3) = 10 + 10 + 10.
Proof.
  destruct (signed_is_running_sum_of_net_activations
              form_defaults 2 (row_of_month form_defaults 3)) as [_ Hsum].
  - reflexivity.
  - rewrite Hsum. reflexivity.
Defined.

(** X3.  For every policy string, the Commission from Clients of a row is
    its gross client payments times the commission rate, and its Total
    Monthly Earnings are its New Sale Income plus its Commission from
    Clients. *)
Theorem earnings_identities :
  forall (p : Params) (r : Row),
    In r (build_monthly_dataframe p) ->
    (Commission_from_Clients r ==
     Client_Payments_Gross r * commission_rate p)%Q /\
    (Total_Monthly_Earnings r ==
     New_Sale_Income r + Commission_from_Clients r)%Q.
Proof.
  intros p r Hr. emitted_row Hr.
  unfold include_bonus_of, include_recurring_of in *. cbn [existsb] in *.
  destruct (String.eqb_spec (payout_policy p) "Bonus only (no recurring)")
    as [Hb | Hb];
    destruct (String.eqb_spec (payout_policy p) "Recurring only (no bonus)")
      as [Hr | Hr];
    destruct (String.eqb_spec (payout_policy p) "Bonus + Recurring")
      as [Hbr | Hbr];
    try congruence; cbn [orb andb] in *;
    try (injection Hrec as <- <-);
    (split; [try reflexivity; now rewrite Qmult_0_l |]);
    try reflexivity.
  - rewrite Qplus_0_r. reflexivity.
  - destruct (String.eqb (payout_type p) "Commissionable (x%)");
      [rewrite Qmult_0_l |]; now rewrite Qplus_0_l.
Qed.

Lemma earnings_identities_witness :
  (Total_Monthly_Earnings (row_of_month form_defaults 1) == 3936)%Q.
Proof.
  destruct (earnings_identities form_defaults (row_of_month form_defaults 1))
    as [Hcommission Htotal].
  - apply row_of_month_In. split; apply Z.leb_le; reflexivity.
  - rewrite Htotal, Hcommission. vm_compute. reflexivity.
Defined.

(** ** Horizon and override *)

(** X4.  Lengthening the horizon never changes a row already produced: the
    table for a horizon [n <= months] is the first [n] rows of the table
    for [months]. *)
Theorem shorter_horizon_is_a_prefix :
  forall (p : Params) (n : Z),
    n <= months p ->
    build_monthly_dataframe (with_months n p) =
    firstn (Z.to_nat n) (build_monthly_dataframe p).
Proof.
  intros p n Hn.
  change (build_monthly_dataframe (with_months n p)) with (rows (run p n)).
  rewrite build_monthly_dataframe_run.
  destruct (Z.le_gt_cases 0 n) as [H0 | H0].
  - apply rows_run_prefix. lia.
  - rewrite run_nonpos by lia. replace (Z.to_nat n) with 0%nat by lia.
    reflexivity.
Qed.

Lemma shorter_horizon_is_a_prefix_witness :
  build_monthly_dataframe (with_months 5 form_defaults) =
  firstn 5 (build_monthly_dataframe form_defaults).
Proof.
  apply (shorter_horizon_is_a_prefix form_defaults 5).
  apply Z.leb_le. reflexivity.
Defined.

(** Two parameter sets whose loop bodies agree on the months [1..n] reach
    the same state after [n] months. *)
Lemma run_ext (p1 p2 : Params) (n : Z) :
  (forall st m, 1 <= m <= n -> month_body p1 st m = month_body p2 st m) ->
  run p1 n = run p2 n.
Proof.
  destruct (Z.le_gt_cases 0 n) as [Hn | Hn];
    [| intros _; now rewrite !run_nonpos by lia].
  pattern n. apply natlike_ind; [| | exact Hn]; clear n Hn.
  - intros _. reflexivity.
  - intros n Hn IH Hbody. unfold Z.succ in *.
    rewrite !run_succ by assumption.
    rewrite IH by (intros st m Hm; apply Hbody; lia).
    apply Hbody. lia.
Qed.

Lemma month_body_override_off (p : Params) (k v v' : Z) (st : LoopState)
      (m : Z) :
  k <> m ->
  month_body (with_override k v p) st m =
  month_body (with_override 0 v' p) st m.
Proof.
  intro Hkm. unfold month_body. cbn [with_override override_month
    override_new_clients default_new_clients cancellations_mode cancellations
    churn_percent commission_rate payout_policy payout_type
    use_new_sale_bonus new_sale_payout payout_duration contract_type
    free_months intro_months intro_amount recurring_amount flat_amount
    lifetime_months lifetime_mode].
  destruct (Z.eqb_spec k m) as [Heq | _]; [contradiction |].
  destruct (Z.eqb_spec 0 m) as [_ | _]; reflexivity.
Qed.

Lemma month_body_override_default (p : Params) (k v' : Z) (st : LoopState)
      (m : Z) :
  month_body (with_override k (default_new_clients p) p) st m =
  month_body (with_override 0 v' p) st m.
Proof.
  unfold month_body. cbn [with_override override_month
    override_new_clients default_new_clients cancellations_mode cancellations
    churn_percent commission_rate payout_policy payout_type
    use_new_sale_bonus new_sale_payout payout_duration contract_type
    free_months intro_months intro_amount recurring_amount flat_amount
    lifetime_months lifetime_mode].
  destruct ((k =? m) && (k >? 0)); destruct (Z.eqb_spec 0 m) as [_ | _];
    reflexivity.
Qed.

(** X5.  An override of month [k] leaves every row before month [k] as it
    is without the override, and an override by the default count changes
    no row at all. *)
Theorem override_leaves_earlier_rows :
  forall (p : Params) (k v v' : Z),
    firstn (Z.to_nat (k - 1)) (build_monthly_dataframe (with_override k v p)) =
    firstn (Z.to_nat (k - 1)) (build_monthly_dataframe (with_override 0 v' p))
    /\
    build_monthly_dataframe (with_override k (default_new_clients p) p) =
    build_monthly_dataframe (with_override 0 v' p).
Proof.
  intros p k v v'. split.
  - set (p1 := with_override k v p). set (p2 := with_override 0 v' p).
    assert (Hrun : forall n, n < k -> run p1 n = run p2 n).
    { intros n Hn. apply run_ext. intros st m Hm.
      apply month_body_override_off. lia. }
    rewrite !build_monthly_dataframe_run.
    change (months p1) with (months p). change (months p2) with (months p).
    destruct (Z.le_gt_cases k (months p)) as [Hk | Hk].
    + destruct (Z.le_gt_cases 1 k) as [H1 | H1];
        [| replace (Z.to_nat (k - 1)) with 0%nat by lia; reflexivity].
      rewrite <- !(rows_run_prefix _ (k - 1) (months p)) by lia.
      f_equal. apply Hrun. lia.
    + f_equal. f_equal. apply Hrun. exact Hk.
  - rewrite !build_monthly_dataframe_run. f_equal. apply run_ext.
    intros st m _. apply month_body_override_default.
Qed.

(** ** Recurring revenue *)

Lemma run_births (p : Params) (n : Z) (c : Cohort) :
  In c (cohorts (run p n)) -> 1 <= birth c <= n.
Proof.
  intro Hc. apply (in_map birth) in Hc.
  destruct (run_cohorts p n) as (Hbirth & _). rewrite Hbirth in Hc.
  destruct (Z.le_gt_cases 0 n) as [Hn | Hn].
  - rewrite rows_run_months in Hc by lia. apply In_range in Hc. lia.
  - rewrite run_nonpos in Hc by lia. destruct Hc.
Qed.

(** A cohort still in its free months leaves the accumulators alone. *)
Lemma cohort_body_free (p : Params) (m : Z) (acc : Q * Q) (c : Cohort) :
  m - birth c < free_months p -> cohort_body p m acc c = acc.
Proof.
  intro Hfree. destruct acc as [gross paying]. unfold cohort_body.
  destruct (m - birth c <? 0); [reflexivity |].
  destruct (negb _); [reflexivity |].
  unfold per_client_payment.
  destruct (Z.ltb_spec (m - birth c) (free_months p)); [reflexivity | lia].
Qed.

Lemma cohort_scan_free (p : Params) (m : Z) (cs : list Cohort) (acc : Q * Q) :
  Forall (fun c => m - birth c < free_months p) cs ->
  fold_left (cohort_body p m) cs acc = acc.
Proof.
  induction 1 as [| c cs Hc _ IH]; cbn [fold_left]; [reflexivity |].
  now rewrite cohort_body_free.
Qed.

(** X6.  No client pays during the first [free_months] months of the
    projection: in every row of a month [<= free_months] the paying-client
    count and the gross client payments are 0, and so is the commission. *)
Theorem no_revenue_in_the_first_free_months :
  forall (p : Params) (r : Row),
    In r (build_monthly_dataframe p) ->
    Month r <= free_months p ->
    Paying_SMEs_this_month r = 0%Q /\
    Client_Payments_Gross r = 0%Q /\
    (Commission_from_Clients r == 0)%Q.
Proof.
  intros p r Hr. emitted_row Hr. intro Hfree.
  assert (Hscan : (gross, paying) = (0%Q, 0%Q)).
  { rewrite <- Hrec.
    destruct (include_recurring_of (payout_policy p)); [| reflexivity].
    apply cohort_scan_free. apply Forall_app. split.
    - apply Forall_forall. intros c Hc. apply run_births in Hc. lia.
    - repeat constructor. cbn. lia. }
  injection Hscan as -> ->. repeat split.
  destruct (include_recurring_of (payout_policy p));
    [apply Qmult_0_l | reflexivity].
Qed.

Lemma no_revenue_in_the_first_free_months_witness :
  Client_Payments_Gross (row_of_month churn_defaults 1) = 0%Q.
Proof.
  apply (no_revenue_in_the_first_free_months
           churn_defaults (row_of_month churn_defaults 1)).
  - apply row_of_month_In. split; apply Z.leb_le; reflexivity.
  - apply Z.leb_le. reflexivity.
Defined.

Lemma Qpower_at_most_one (x : Q) (k : Z) :
  (0 <= x)%Q -> (x <= 1)%Q -> 0 < k -> (x ^ k <= 1)%Q.
Proof.
  intros Hpos Hle Hk.
  destruct k as [| n | n]; try lia. clear Hk.
  induction n as [| n IH] using Pos.peano_ind.
  - exact Hle.
  - assert (Hstep : (x ^ Z.pos (Pos.succ n) == x ^ Z.pos n * x)%Q).
    { rewrite Pos2Z.inj_succ. unfold Z.succ. rewrite Qpower_plus'; [| lia].
      reflexivity. }
    rewrite Hstep.
    apply Qle_trans with (1 * x)%Q.
    + apply Qmult_le_compat_r; assumption.
    + rewrite Qmult_1_l. exact Hle.
Qed.

Lemma survival_factor_at_most_one (churn_rate : Q) (churn_age : Z) :
  (churn_rate <= 1)%Q -> (survival_factor churn_rate churn_age <= 1)%Q.
Proof.
  intro Hr. unfold survival_factor.
  destruct (Qle_bool churn_rate 0) eqn:Hle; cbn [orb]; [apply Qle_refl |].
  destruct (Z.leb_spec churn_age 0); [apply Qle_refl |].
  apply Qpower_at_most_one; [| | assumption].
  - unfold Qminus. rewrite <- Qle_minus_iff. exact Hr.
  - assert (Hpos : (0 < churn_rate)%Q).
    { apply Qnot_le_lt. intro H0. apply Qle_bool_iff in H0. congruence. }
    apply Qlt_le_weak in Hpos.
    apply Qplus_le_l with (z := churn_rate). unfold Qminus.
    rewrite <- Qplus_assoc, (Qplus_comm (- churn_rate) churn_rate),
      Qplus_opp_r, Qplus_0_r.
    rewrite <- (Qplus_0_r 1) at 1. apply Qplus_le_r. exact Hpos.
Qed.

Lemma Qmult_le_nonneg_l (x y z : Q) :
  (0 <= z)%Q -> (x <= y)%Q -> (z * x <= z * y)%Q.
Proof.
  intros Hz Hxy. rewrite (Qmult_comm z x), (Qmult_comm z y).
  now apply Qmult_le_compat_r.
Qed.

(** What one cohort adds to the paying-client count is at most its size. *)
Lemma cohort_body_paying_bound (p : Params) (m : Z) (acc : Q * Q)
      (c : Cohort) :
  0 <= size c ->
  (snd (cohort_body p m acc c) <= snd acc + inject_Z (size c))%Q.
Proof.
  intro Hsize. destruct acc as [gross paying]. unfold cohort_body.
  assert (Hkeep : (paying <= paying + inject_Z (size c))%Q).
  { rewrite <- (Qplus_0_r paying) at 1. apply Qplus_le_r.
    rewrite <- (Zle_Qle 0). exact Hsize. }
  destruct (m - birth c <? 0); [exact Hkeep |].
  destruct (negb _); [exact Hkeep |].
  destruct (Qlt_bool 0 _); [| exact Hkeep].
  cbn [snd]. apply Qplus_le_r.
  rewrite <- (Qmult_1_r (inject_Z (size c))) at 2.
  apply Qmult_le_nonneg_l; [rewrite <- (Zle_Qle 0); exact Hsize |].
  destruct (String.eqb (cancellations_mode p) "Churn"); [| apply Qle_refl].
  apply survival_factor_at_most_one.
  apply Qle_trans with (99 # 100)%Q;
    [apply churn_rate_of_bounds | discriminate].
Qed.

Lemma cohort_scan_paying_bound (p : Params) (m : Z) (cs : list Cohort) :
  Forall (fun c => 0 <= size c) cs ->
  forall acc : Q * Q,
    (snd (fold_left (cohort_body p m) cs acc) <=
     snd acc + inject_Z (Zsum (map size cs)))%Q.
Proof.
  induction 1 as [| c cs Hc _ IH]; intro acc; cbn [fold_left map].
  - cbn. rewrite Qplus_0_r. apply Qle_refl.
  - eapply Qle_trans; [apply IH |].
    change (Zsum (size c :: map size cs)) with (size c + Zsum (map size cs)).
    rewrite inject_Z_plus, Qplus_assoc. apply Qplus_le_l.
    now apply cohort_body_paying_bound.
Qed.

Lemma month_body_new_cohort_nonneg (p : Params) (st : LoopState) (m : Z)
      (c : Cohort) :
  0 <= default_new_clients p -> 0 <= override_new_clients p ->
  cohorts (month_body p st m) = cohorts st ++ [c] -> 0 <= size c.
Proof.
  intros Hdefault Hoverride. unfold month_body.
  destruct (if include_recurring_of (payout_policy p) then _ else _)
    as [gross paying].
  cbn [cohorts]. intro Hc. apply app_inj_tail in Hc. destruct Hc as [_ <-].
  cbn [size].
  destruct ((override_month p =? m) && (override_month p >? 0));
    destruct (String.eqb (cancellations_mode p) "Fixed"); lia.
Qed.

Lemma run_sizes_nonneg (p : Params) (n : Z) :
  0 <= default_new_clients p -> 0 <= override_new_clients p ->
  Forall (fun c => 0 <= size c) (cohorts (run p n)).
Proof.
  intros Hdefault Hoverride.
  destruct (Z.le_gt_cases 0 n) as [Hn | Hn];
    [| rewrite run_nonpos by lia; constructor].
  pattern n. apply natlike_ind; [| | exact Hn]; clear n Hn.
  - constructor.
  - intros n Hn IH. unfold Z.succ. rewrite run_succ by assumption.
    destruct (month_body_appends p (run p n) (n + 1))
      as (r & c & _ & Hc & _).
    rewrite Hc. apply Forall_app. split; [exact IH |].
    repeat constructor.
    now apply (month_body_new_cohort_nonneg p (run p n) (n + 1)).
Qed.

Lemma Zsum_nonneg (cs : list Cohort) :
  Forall (fun c => 0 <= size c) cs -> 0 <= Zsum (map size cs).
Proof.
  unfold Zsum. induction 1 as [| c cs Hc _ IH]; cbn [map fold_right]; lia.
Qed.

(** When the client counts are not negative, the cohort scan of month
    [k + 1] returns nonnegative sums, and a paying-client count of at most
    the cohorts' total size. *)
Lemma month_scan_bounds (p : Params) (k : Z) (net : Z) :
  0 <= default_new_clients p -> 0 <= override_new_clients p ->
  0 <= net ->
  let scan :=
    fold_left (cohort_body p (k + 1))
              (cohorts (run p k) ++ [{| birth := k + 1; size := net |}])
              (0%Q, 0%Q) in
  (0 <= fst scan)%Q /\ (0 <= snd scan)%Q /\
  (snd scan <= inject_Z (signed_cum (run p k) + net))%Q.
Proof.
  intros Hdefault Hoverride Hnet scan.
  assert (Hsizes : Forall (fun c => 0 <= size c)
                     (cohorts (run p k) ++ [{| birth := k + 1; size := net |}])).
  { apply Forall_app. split; [now apply run_sizes_nonneg |].
    repeat constructor. exact Hnet. }
  destruct (cohort_scan_nonneg p (k + 1) _ Hsizes (0%Q, 0%Q))
    as [Hgross Hpaying]; [split; apply Qle_refl |].
  split; [exact Hgross | split; [exact Hpaying |]].
  pose proof (cohort_scan_paying_bound p (k + 1) _ Hsizes (0%Q, 0%Q)) as Hb.
  cbn [snd] in Hb. rewrite Qplus_0_l in Hb.
  destruct (run_cohorts p k) as (_ & Hsize & Hsum).
  rewrite map_app, Zsum_app, Hsize, <- Hsum in Hb. cbn in Hb.
  rewrite Z.add_0_r in Hb. exact Hb.
Qed.

(** X7.  With nonnegative client counts, the paying clients of a month
    never exceed the clients signed so far. *)
Theorem paying_clients_at_most_signed :
  forall (p : Params) (r : Row),
    0 <= default_new_clients p -> 0 <= override_new_clients p ->
    In r (build_monthly_dataframe p) ->
    (Paying_SMEs_this_month r <= inject_Z (Signed_SMEs_Cumulative r))%Q.
Proof.
  intros p r Hdefault Hoverride Hr. emitted_row Hr.
  set (net := if String.eqb (cancellations_mode p) "Fixed" then _ else _)
    in *.
  assert (Hnet : 0 <= net).
  { subst net.
    destruct ((override_month p =? k + 1) && (override_month p >? 0));
      destruct (String.eqb (cancellations_mode p) "Fixed"); lia. }
  destruct (month_scan_bounds p k net Hdefault Hoverride Hnet)
    as (_ & _ & Hbound).
  destruct (include_recurring_of (payout_policy p)).
  - rewrite Hrec in Hbound. exact Hbound.
  - injection Hrec as _ <-. rewrite <- (Zle_Qle 0).
    destruct (run_cohorts p k) as (_ & Hsize & ->). rewrite <- Hsize.
    pose proof (run_sizes_nonneg p k Hdefault Hoverride) as Hsizes.
    apply Zsum_nonneg in Hsizes. lia.
Qed.

Lemma paying_clients_at_most_signed_witness :
  (Paying_SMEs_this_month (row_of_month churn_defaults 9) <=
   inject_Z (Signed_SMEs_Cumulative (row_of_month churn_defaults 9)))%Q.
Proof.
  apply (paying_clients_at_most_signed churn_defaults).
  - apply Z.leb_le. reflexivity.
  - apply Z.leb_le. reflexivity.
  - apply row_of_month_In. split; apply Z.leb_le; reflexivity.
Defined.

(** X8.  With nonnegative client counts and a commission rate of at most
    1, the gross client payments of a row are nonnegative and its
    commission from clients does not exceed them. *)
Theorem commission_at_most_gross :
  forall (p : Params) (r : Row),
    0 <= default_new_clients p -> 0 <= override_new_clients p ->
    (commission_rate p <= 1)%Q ->
    In r (build_monthly_dataframe p) ->
    (0 <= Client_Payments_Gross r)%Q /\
    (Commission_from_Clients r <= Client_Payments_Gross r)%Q.
Proof.
  intros p r Hdefault Hoverride Hrate Hr. emitted_row Hr.
  set (net := if String.eqb (cancellations_mode p) "Fixed" then _ else _)
    in *.
  assert (Hnet : 0 <= net).
  { subst net.
    destruct ((override_month p =? k + 1) && (override_month p >? 0));
      destruct (String.eqb (cancellations_mode p) "Fixed"); lia. }
  destruct (month_scan_bounds p k net Hdefault Hoverride Hnet)
    as (Hgross & _ & _).
  destruct (include_recurring_of (payout_policy p)).
  - rewrite Hrec in Hgross. cbn [fst] in Hgross. split; [exact Hgross |].
    rewrite <- (Qmult_1_r gross) at 2. now apply Qmult_le_nonneg_l.
  - injection Hrec as <- _. split; apply Qle_refl.
Qed.

Lemma commission_at_most_gross_witness :
  (Commission_from_Clients (row_of_month churn_defaults 9) <=
   Client_Payments_Gross (row_of_month churn_defaults 9))%Q.
Proof.
  apply (commission_at_most_gross churn_defaults).
  - apply Z.leb_le. reflexivity.
  - apply Z.leb_le. reflexivity.
  - discriminate.
  - apply row_of_month_In. split; apply Z.leb_le; reflexivity.
Defined.

(** ** Flat contract with fixed cancellations: closed form *)

Section FlatFixed.

Variable p : Params.

Hypothesis fixed_mode : cancellations_mode p = "Fixed"%string.
Hypothesis no_override : override_month p <= 0.
Hypothesis unlimited : lifetime_months p <= 0.
Hypothesis flat_contract : contract_type p <> "Intro + Recurring"%string.
Hypothesis flat_positive : (0 < flat_amount p)%Q.

Lemma flat_fixed_new_cohort (st : LoopState) (m : Z) (c : Cohort) :
  cohorts (month_body p st m) = cohorts st ++ [c] -> size c = fixed_net p.
Proof.
  unfold month_body.
  destruct (if include_recurring_of (payout_policy p) then _ else _)
    as [gross paying].
  cbn [cohorts]. intro Hc. apply app_inj_tail in Hc. destruct Hc as [_ <-].
  cbn [size]. rewrite fixed_mode. cbn [String.eqb Ascii.eqb Bool.eqb].
  destruct (Z.gtb_spec (override_month p) 0); [lia |].
  rewrite andb_false_r. reflexivity.
Qed.

Lemma flat_fixed_sizes (n : Z) :
  Forall (fun c => size c = fixed_net p) (cohorts (run p n)).
Proof.
  destruct (Z.le_gt_cases 0 n) as [Hn | Hn];
    [| rewrite run_nonpos by lia; constructor].
  pattern n. apply natlike_ind; [| | exact Hn]; clear n Hn.
  - constructor.
  - intros n Hn IH. unfold Z.succ. rewrite run_succ by assumption.
    destruct (month_body_appends p (run p n) (n + 1))
      as (r & c & _ & Hc & _).
    rewrite Hc. apply Forall_app. split; [exact IH |].
    repeat constructor.
    now apply (flat_fixed_new_cohort (run p n) (n + 1)).
Qed.

(** A cohort born by month [m] adds its whole size once its free months
    are over, and nothing before. *)
Lemma flat_fixed_cohort_body (m : Z) (gross paying : Q) (c : Cohort) :
  birth c <= m ->
  cohort_body p m (gross, paying) c =
  if free_months p <=? m - birth c
  then ((gross + flat_amount p * (inject_Z (size c) * 1))%Q,
        (paying + inject_Z (size c) * 1)%Q)
  else (gross, paying).
Proof.
  intro Hborn. unfold cohort_body, is_active_by_lifetime, per_client_payment.
  destruct (Z.ltb_spec (m - birth c) 0); [lia |].
  destruct (Z.leb_spec (lifetime_months p) 0); [| lia]. cbn [negb].
  rewrite fixed_mode. cbn [String.eqb Ascii.eqb Bool.eqb].
  destruct (String.eqb_spec (contract_type p) "Intro + Recurring");
    [contradiction |].
  destruct (Z.ltb_spec (m - birth c) (free_months p));
    destruct (Z.leb_spec (free_months p) (m - birth c)); try lia.
  - reflexivity.
  - apply Qlt_le_weak in flat_positive as Hle.
    unfold Qlt_bool.
    destruct (Qle_bool (flat_amount p) 0) eqn:Hneg; [| reflexivity].
    apply Qle_bool_iff in Hneg.
    exfalso. apply (Qlt_not_le _ _ flat_positive Hneg).
Qed.

Lemma flat_fixed_scan (m : Z) (cs : list Cohort) :
  Forall (fun c => birth c <= m) cs ->
  Forall (fun c => size c = fixed_net p) cs ->
  forall acc : Q * Q,
    let paid :=
      Z.of_nat (List.length
                  (filter (fun b => free_months p <=? m - b) (map birth cs))) in
    (fst (fold_left (cohort_body p m) cs acc) ==
     fst acc + flat_amount p * inject_Z (fixed_net p * paid))%Q /\
    (snd (fold_left (cohort_body p m) cs acc) ==
     snd acc + inject_Z (fixed_net p * paid))%Q.
Proof.
  induction cs as [| c cs IH]; intros Hborn Hsize acc paid; subst paid.
  - cbn. rewrite Z.mul_0_r. split; ring.
  - apply Forall_cons_iff in Hborn. destruct Hborn as [Hc Hborn].
    apply Forall_cons_iff in Hsize. destruct Hsize as [Hs Hsize].
    destruct acc as [gross paying]. cbn [fold_left map filter].
    rewrite flat_fixed_cohort_body by exact Hc.
    destruct (IH Hborn Hsize
                 (if free_months p <=? m - birth c
                  then ((gross + flat_amount p * (inject_Z (size c) * 1))%Q,
                        (paying + inject_Z (size c) * 1)%Q)
                  else (gross, paying))) as [Hg Hp].
    rewrite Hg, Hp. clear Hg Hp IH.
    destruct (free_months p <=? m - birth c); cbn [fst snd List.length].
    + rewrite Hs, Nat2Z.inj_succ. unfold Z.succ.
      rewrite Z.mul_add_distr_l, Z.mul_1_r, !inject_Z_plus. split; ring.
    + split; reflexivity.
Qed.

(** X9.  With a flat contract of positive amount, Fixed mode, no override,
    unlimited lifetime, a policy that includes recurring revenue and
    [free_months >= 0], every month activates
    [fixed_net p = max (default_new_clients - cancellations) 0] clients,
    and in month [m] the clients of the first [max (m - free_months) 0]
    cohorts pay: the paying-client count is
    [fixed_net p * max (m - free_months) 0] and the gross client payments
    are the flat amount times that. *)
Theorem flat_fixed_closed_form :
  forall r : Row,
    0 <= free_months p ->
    payout_policy p = "Bonus + Recurring"%string \/
    payout_policy p = "Recurring only (no bonus)"%string ->
    In r (build_monthly_dataframe p) ->
    let paying := fixed_net p * Z.max (Month r - free_months p) 0 in
    Net_Activations r = fixed_net p /\
    (Paying_SMEs_this_month r == inject_Z paying)%Q /\
    (Client_Payments_Gross r == flat_amount p * inject_Z paying)%Q.
Proof.
  intros r Hfree Hpolicy Hr paying. subst paying.
  emitted_row Hr.
  assert (Hnet : (if String.eqb (cancellations_mode p) "Fixed"
                  then Z.max ((if (override_month p =? k + 1)
                                    && (override_month p >? 0)
                               then override_new_clients p
                               else default_new_clients p)
                              - cancellations p) 0
                  else (if (override_month p =? k + 1)
                             && (override_month p >? 0)
                        then override_new_clients p
                        else default_new_clients p)) = fixed_net p).
  { rewrite fixed_mode. cbn [String.eqb Ascii.eqb Bool.eqb].
    destruct (Z.gtb_spec (override_month p) 0); [lia |].
    rewrite andb_false_r. reflexivity. }
  rewrite Hnet in *. split; [reflexivity |].
  assert (Hinc : include_recurring_of (payout_policy p) = true)
    by (destruct Hpolicy as [-> | ->]; reflexivity).
  rewrite Hinc in Hrec.
  destruct (flat_fixed_scan (k + 1)
              (cohorts (run p k) ++ [{| birth := k + 1; size := fixed_net p |}]))
    with (acc := (0%Q, 0%Q)) as [Hg Hp].
  - apply Forall_app. split.
    + apply Forall_forall. intros c Hc. apply run_births in Hc. lia.
    + repeat constructor. cbn. lia.
  - apply Forall_app. split; [apply flat_fixed_sizes |].
    repeat constructor.
  - rewrite Hrec in Hg, Hp. cbn [fst snd] in Hg, Hp.
    assert (Hcount :
      Z.of_nat (List.length
        (filter (fun b => free_months p <=? k + 1 - b)
           (map birth
              (cohorts (run p k) ++ [{| birth := k + 1; size := fixed_net p |}])))) =
      Z.max (k + 1 - free_months p) 0).
    { destruct (run_cohorts p k) as (Hbirth & _).
      rewrite map_app, Hbirth, rows_run_months by lia. cbn [map birth].
      rewrite <- (range_snoc 1 (k + 1)) by lia.
      rewrite (filter_range_interval _ 1 (k + 1 + 1) 1
                 (k + 1 - free_months p + 1)).
      - rewrite range_length. lia.
      - intros b Hb. rewrite Z.leb_le. lia. }
    rewrite Hcount in Hg, Hp. rewrite Hg, Hp. split; ring.
Qed.

End FlatFixed.

Lemma flat_fixed_closed_form_witness :
  (Client_Payments_Gross (row_of_month flat_defaults 7) == 5000)%Q.
Proof.
  destruct (flat_fixed_closed_form flat_defaults)
    with (r := row_of_month flat_defaults 7) as (_ & _ & Hgross).
  - reflexivity.
  - apply Z.leb_le. reflexivity.
  - apply Z.leb_le. reflexivity.
  - discriminate.
  - reflexivity.
  - apply Z.leb_le. reflexivity.
  - left. reflexivity.
  - apply row_of_month_In. split; apply Z.leb_le; reflexivity.
  - rewrite Hgross.
    rewrite (row_of_month_Month flat_defaults 7)
      by (split; apply Z.leb_le; reflexivity).
    reflexivity.
Defined.

(** ** The helpers, further *)

Lemma is_active_by_lifetime_window
      (lifetime_months free_months : Z) (lifetime_mode : string) (age : Z) :
  is_active_by_lifetime age (Z.max (age - free_months) 0)
                        lifetime_months lifetime_mode = true <->
  lifetime_months <= 0 \/
  age < lifetime_window lifetime_months free_months lifetime_mode.
Proof.
  unfold is_active_by_lifetime, lifetime_window.
  destruct (Z.leb_spec lifetime_months 0) as [Hoff | Hon].
  - split; [intros _; left; exact Hoff | reflexivity].
  - destruct (String.eqb lifetime_mode "From activation");
      rewrite Z.ltb_lt; lia.
Qed.

(** X10.  Lifetime window.  With a positive lifetime the gate is open
    exactly for the ages below [lifetime_months] in "From activation" mode,
    and below [lifetime_months + free_months] in any other mode, where the
    age from the first payment is [max (age - free_months) 0]; with a
    lifetime of 0 or less it is always open. *)
Theorem lifetime_gate_window :
  forall (lifetime_months free_months : Z) (lifetime_mode : string) (age : Z),
    is_active_by_lifetime age (Z.max (age - free_months) 0)
                          lifetime_months lifetime_mode = true <->
    lifetime_months <= 0 \/
    (lifetime_mode = "From activation"%string /\ age < lifetime_months) \/
    (lifetime_mode <> "From activation"%string /\
     age < lifetime_months + free_months).
Proof.
  intros L free mode age. rewrite is_active_by_lifetime_window.
  unfold lifetime_window.
  destruct (String.eqb_spec mode "From activation"); intuition lia.
Qed.

(** X11.  The survival factor of a churn rate below 1 is a proper
    fraction: strictly positive and at most 1, at every age. *)
Theorem survival_factor_is_a_fraction :
  forall (churn_rate : Q) (churn_age : Z),
    (churn_rate < 1)%Q ->
    (0 < survival_factor churn_rate churn_age)%Q /\
    (survival_factor churn_rate churn_age <= 1)%Q.
Proof.
  intros r a Hr. split.
  - unfold survival_factor.
    destruct (Qle_bool r 0 || (a <=? 0)); [reflexivity |].
    apply Qpower_0_lt. unfold Qminus. rewrite <- Qlt_minus_iff. exact Hr.
  - apply survival_factor_at_most_one. apply Qlt_le_weak. exact Hr.
Qed.

Lemma survival_factor_is_a_fraction_witness :
  (0 < survival_factor (99 # 100) 60)%Q /\
  (survival_factor (99 # 100) 60 <= 1)%Q.
Proof.
  apply (survival_factor_is_a_fraction (99 # 100) 60). reflexivity.
Defined.

(** X12.  Survival composes: surviving [a + b] months is surviving [a]
    months and then [b] more, for every rate and all ages [a, b >= 0]. *)
Theorem survival_factor_multiplicative :
  forall (churn_rate : Q) (a b : Z),
    0 <= a -> 0 <= b ->
    (survival_factor churn_rate (a + b) ==
     survival_factor churn_rate a * survival_factor churn_rate b)%Q.
Proof.
  intros r a b Ha Hb. unfold survival_factor.
  destruct (Qle_bool r 0); cbn [orb]; [reflexivity |].
  destruct (Z.leb_spec a 0) as [Ha0 | Ha0];
    destruct (Z.leb_spec b 0) as [Hb0 | Hb0];
    destruct (Z.leb_spec (a + b) 0) as [Hab | Hab]; try lia.
  - reflexivity.
  - replace (a + b) with b by lia. now rewrite Qmult_1_l.
  - replace (a + b) with a by lia. now rewrite Qmult_1_r.
  - apply Qpower_plus'. lia.
Qed.

Lemma survival_factor_multiplicative_witness :
  (survival_factor (1 # 10) (2 + 3) ==
   survival_factor (1 # 10) 2 * survival_factor (1 # 10) 3)%Q.
Proof.
  apply (survival_factor_multiplicative (1 # 10) 2 3); lia.
Defined.

(** X13.  The churn clamp.  The monthly churn rate the engine uses lies in
    [0, 0.99] whatever the percentage; it is the percentage over 100 for a
    percentage in [0, 99], 0 for a negative one and 0.99 beyond 99. *)
Theorem churn_rate_clamp :
  forall churn_percent : Q,
    (0 <= churn_rate_of churn_percent <= 99 # 100)%Q /\
    ((0 <= churn_percent <= 99)%Q ->
     (churn_rate_of churn_percent == churn_percent / 100)%Q) /\
    ((churn_percent <= 0)%Q -> (churn_rate_of churn_percent == 0)%Q) /\
    ((99 <= churn_percent)%Q -> (churn_rate_of churn_percent == 99 # 100)%Q).
Proof.
  intro c.
  assert (Hdiv : forall x y, (x <= y)%Q -> (x / 100 <= y / 100)%Q).
  { intros x y Hxy. unfold Qdiv. apply Qmult_le_compat_r; [exact Hxy |].
    discriminate. }
  split; [split; apply churn_rate_of_bounds |]. unfold churn_rate_of.
  split; [| split].
  - intros [H0 H99].
    rewrite Q.min_l
      by (apply Qle_trans with (99 / 100)%Q; [now apply Hdiv | discriminate]).
    apply Q.max_l.
    apply Qle_trans with (0 / 100)%Q; [discriminate | now apply Hdiv].
  - intro H0.
    apply Q.max_r. eapply Qle_trans; [apply Q.le_min_l |].
    apply Qle_trans with (0 / 100)%Q; [now apply Hdiv | discriminate].
  - intro H99.
    rewrite Q.min_r
      by (apply Qle_trans with (99 / 100)%Q; [discriminate | now apply Hdiv]).
    apply Q.max_l. discriminate.
Qed.

Lemma churn_rate_clamp_witness :
  (churn_rate_of 50 == 50 / 100)%Q /\
  (churn_rate_of (-5) == 0)%Q /\
  (churn_rate_of 100 == 99 # 100)%Q.
Proof.
  destruct (churn_rate_clamp 50) as (_ & Hin & _).
  destruct (churn_rate_clamp (-5)) as (_ & _ & Hlow & _).
  destruct (churn_rate_clamp 100) as (_ & _ & _ & Hhigh).
  split; [| split].
  - apply Hin. split; discriminate.
  - apply Hlow. discriminate.
  - apply Hhigh. discriminate.
Defined.

(** ** Lifetime and the paying base *)

(** What the row at index [i] reports is what the iteration of month
    [i + 1] computed over the cohort list as it stood after the append. *)
Lemma row_scan (p : Params) (i : nat) (r : Row) :
  nth_error (build_monthly_dataframe p) i = Some r ->
  Month r = Z.of_nat i + 1 /\
  Signed_SMEs_Cumulative r = signed_cum (run p (Z.of_nat i + 1)) /\
  (Client_Payments_Gross r, Paying_SMEs_this_month r) =
    (if include_recurring_of (payout_policy p)
     then fold_left (cohort_body p (Z.of_nat i + 1))
                    (cohorts (run p (Z.of_nat i + 1))) (0%Q, 0%Q)
     else (0%Q, 0%Q)).
Proof.
  intro Hi. destruct (nth_row_emitted p i r Hi) as (_ & Hrows & _).
  rewrite run_succ by lia. revert Hrows. unfold month_body.
  destruct (if include_recurring_of (payout_policy p) then _ else _)
    as [gross paying] eqn:Hscan.
  cbn [rows cohorts signed_cum]. intro Hrows.
  apply app_inj_tail in Hrows. destruct Hrows as [_ <-]. cbn.
  repeat split. symmetry. exact Hscan.
Qed.

Lemma cohorts_run_prefix (p : Params) (n N : Z) :
  0 <= n <= N ->
  exists rest, cohorts (run p N) = cohorts (run p n) ++ rest.
Proof.
  intros [Hn HnN]. pattern N.
  apply Zlt_lower_bound_ind with (z := n); [| exact HnN].
  clear N HnN. intros N IH HnN.
  destruct (Z.eq_dec N n) as [-> | Hne].
  - exists []. now rewrite app_nil_r.
  - replace N with (N - 1 + 1) by lia. rewrite run_succ by lia.
    destruct (month_body_appends p (run p (N - 1)) (N - 1 + 1))
      as (r & c & _ & -> & _).
    destruct (IH (N - 1)) as [rest ->]; [lia |].
    exists (rest ++ [c]). now rewrite app_assoc.
Qed.

(** A cohort past its lifetime window leaves the accumulators alone. *)
Lemma cohort_body_expired (p : Params) (m : Z) (acc : Q * Q) (c : Cohort) :
  0 < lifetime_months p ->
  lifetime_window (lifetime_months p) (free_months p) (lifetime_mode p)
    <= m - birth c ->
  cohort_body p m acc c = acc.
Proof.
  intros Hlife Hexpired. destruct acc as [gross paying]. unfold cohort_body.
  destruct (m - birth c <? 0); [reflexivity |].
  destruct (is_active_by_lifetime _ _ _ _) eqn:Hactive; [| reflexivity].
  apply is_active_by_lifetime_window in Hactive. lia.
Qed.

Lemma cohort_scan_expired (p : Params) (m : Z) (cs : list Cohort)
      (acc : Q * Q) :
  0 < lifetime_months p ->
  Forall (fun c =>
            lifetime_window (lifetime_months p) (free_months p)
                            (lifetime_mode p) <= m - birth c) cs ->
  fold_left (cohort_body p m) cs acc = acc.
Proof.
  intro Hlife. induction 1 as [| c cs Hc _ IH]; cbn [fold_left];
    [reflexivity |].
  now rewrite cohort_body_expired.
Qed.

(** X14.  Lifetime caps the paying base.  With a positive lifetime,
    [free_months >= 0] and nonnegative client counts, the clients paying in
    a month were all signed within the lifetime window before it: if row
    [r0] lies at least a window ([lifetime_months], plus [free_months]
    outside "From activation" mode) before row [r], the paying clients of
    [r] are at most the clients signed after [r0]. *)
Theorem lifetime_caps_paying_clients :
  forall (p : Params) (i j : nat) (r r0 : Row),
    0 <= default_new_clients p -> 0 <= override_new_clients p ->
    0 < lifetime_months p -> 0 <= free_months p ->
    nth_error (build_monthly_dataframe p) i = Some r ->
    nth_error (build_monthly_dataframe p) j = Some r0 ->
    Month r0 +
      lifetime_window (lifetime_months p) (free_months p) (lifetime_mode p)
      <= Month r ->
    (Paying_SMEs_this_month r <=
     inject_Z (Signed_SMEs_Cumulative r - Signed_SMEs_Cumulative r0))%Q.
Proof.
  intros p i j r r0 Hdefault Hoverride Hlife Hfree Hi Hj Hwindow.
  destruct (row_scan p i r Hi) as (Hm & Hsigned & Hscan).
  destruct (row_scan p j r0 Hj) as (Hm0 & Hsigned0 & _).
  rewrite Hm, Hm0 in Hwindow. rewrite Hsigned, Hsigned0.
  assert (Hpos : 0 < lifetime_window (lifetime_months p) (free_months p)
                                     (lifetime_mode p)).
  { unfold lifetime_window. destruct (String.eqb _ _); lia. }
  destruct (cohorts_run_prefix p (Z.of_nat j + 1) (Z.of_nat i + 1))
    as [rest Hsplit]; [lia |].
  pose proof (run_sizes_nonneg p (Z.of_nat i + 1) Hdefault Hoverride)
    as Hsizes.
  rewrite Hsplit in Hsizes. apply Forall_app in Hsizes.
  destruct Hsizes as [_ Hrest].
  assert (Hdiff : signed_cum (run p (Z.of_nat i + 1)) -
                  signed_cum (run p (Z.of_nat j + 1)) =
                  Zsum (map size rest)).
  { destruct (run_cohorts p (Z.of_nat i + 1)) as (_ & Hsize & ->).
    destruct (run_cohorts p (Z.of_nat j + 1)) as (_ & Hsize0 & ->).
    rewrite <- Hsize, <- Hsize0, Hsplit, map_app, Zsum_app. lia. }
  rewrite Hdiff.
  destruct (include_recurring_of (payout_policy p)).
  - assert (Hpaying : Paying_SMEs_this_month r =
                      snd (fold_left (cohort_body p (Z.of_nat i + 1)) rest
                                     (0%Q, 0%Q))).
    { change (Paying_SMEs_this_month r)
        with (snd (Client_Payments_Gross r, Paying_SMEs_this_month r)).
      rewrite Hscan, Hsplit, fold_left_app.
      rewrite (cohort_scan_expired p (Z.of_nat i + 1)
                 (cohorts (run p (Z.of_nat j + 1))));
        [reflexivity | exact Hlife |].
      apply Forall_forall. intros c Hc. apply run_births in Hc. lia. }
    rewrite Hpaying.
    eapply Qle_trans; [apply cohort_scan_paying_bound; exact Hrest |].
    cbn [snd]. rewrite Qplus_0_l. apply Qle_refl.
  - injection Hscan as _ ->. rewrite <- (Zle_Qle 0).
    now apply Zsum_nonneg.
Qed.

Lemma lifetime_caps_paying_clients_witness :
  (Paying_SMEs_this_month (row_of_month churn_defaults 10) <=
   inject_Z (Signed_SMEs_Cumulative (row_of_month churn_defaults 10) -
             Signed_SMEs_Cumulative (row_of_month churn_defaults 3)))%Q.
Proof.
  apply (lifetime_caps_paying_clients churn_defaults 9 2).
  - apply Z.leb_le. reflexivity.
  - apply Z.leb_le. reflexivity.
  - reflexivity.
  - apply Z.leb_le. reflexivity.
  - reflexivity.
  - reflexivity.
  - apply Z.leb_le. reflexivity.
Defined.

(** ** Yearly totals of any frame *)

Lemma group_add_total (k : Metric) (y : Z) (r : Row) (acc : list YearRow) :
  (Qsum (map (yearly k) (group_add y r acc)) ==
   Qsum (map (yearly k) acc) + monthly k r)%Q.
Proof.
  induction acc as [| g rest IH]; cbn [group_add].
  - cbn [map Qsum fold_right]. rewrite yearly_open_group. ring.
  - destruct (y <? Year g).
    + cbn [map Qsum fold_right]. rewrite yearly_open_group. ring.
    + destruct (y =? Year g); cbn [map Qsum fold_right].
      * rewrite yearly_extend_group. ring.
      * fold (Qsum (map (yearly k) (group_add y r rest))). rewrite IH.
        fold (Qsum (map (yearly k) rest)). ring.
Qed.

Lemma groupby_year_sum_total (k : Metric) (df : list Row) :
  (Qsum (map (yearly k) (groupby_year_sum df)) ==
   Qsum (map (monthly k) df))%Q.
Proof.
  induction df as [| r df IH] using rev_ind; [reflexivity |].
  rewrite groupby_year_sum_snoc, group_add_total, IH, map_app, Qsum_app.
  cbn. ring.
Qed.

Lemma groupby_year_sum_length (df : list Row) :
  (List.length (groupby_year_sum df) <= List.length df)%nat.
Proof.
  induction df as [| r df IH] using rev_ind; [apply Nat.le_refl |].
  rewrite groupby_year_sum_snoc, length_app. cbn [List.length].
  assert (Hadd : forall acc,
             (List.length (group_add (year_of r) r acc)
              <= S (List.length acc))%nat).
  { induction acc as [| g rest IHacc]; cbn [group_add]; [cbn; lia |].
    destruct (year_of r <? Year g); [cbn; lia |].
    destruct (year_of r =? Year g); cbn [List.length]; lia. }
  specialize (Hadd (groupby_year_sum df)). lia.
Qed.

(** X15.  [yearly_totals] fails exactly on the empty frame.  On any other
    frame, whatever the order of its rows and however its months repeat, it
    returns the years that occur in it, each once and in strictly ascending
    order, each with the sums of its rows, in at most as many rows as the
    frame has. *)
Theorem yearly_totals_of_any_frame :
  forall df : list Row,
    (yearly_totals df = None <-> df = []) /\
    forall yt : list YearRow,
      yearly_totals df = Some yt ->
      StronglySorted Z.lt (map Year yt) /\
      (forall y, In y (map Year yt) <-> In y (map year_of df)) /\
      (forall g k, In g yt ->
         (yearly k g ==
          Qsum (map (monthly k) (months_of_year (Year g) df)))%Q) /\
      (List.length yt <= List.length df)%nat.
Proof.
  intro df. split.
  - destruct df as [| r df]; cbn [yearly_totals]; split; intro H;
      solve [reflexivity | discriminate H].
  - intros yt Hyt.
    assert (Heq : yt = groupby_year_sum df)
      by (destruct df; cbn [yearly_totals] in Hyt; congruence).
    subst yt. destruct (groupby_year_sum_grouped df) as [Hs Hk Hsum].
    split; [exact Hs | split; [exact Hk | split; [exact Hsum |]]].
    apply groupby_year_sum_length.
Qed.

Lemma yearly_totals_of_any_frame_witness :
  StronglySorted Z.lt (map Year (groupby_year_sum shuffled_frame)) /\
  (List.length (groupby_year_sum shuffled_frame) <= 3)%nat.
Proof.
  destruct (yearly_totals_of_any_frame shuffled_frame) as [_ Hsome].
  destruct (Hsome (groupby_year_sum shuffled_frame))
    as (Hsorted & _ & _ & Hlength); [reflexivity |].
  split; [exact Hsorted | exact Hlength].
Defined.

(** X16.  Aggregation loses nothing: for each of the four columns, the
    yearly totals of a frame add up to the sum of the column over all its
    rows. *)
Theorem yearly_totals_preserve_the_grand_total :
  forall (df : list Row) (yt : list YearRow) (k : Metric),
    yearly_totals df = Some yt ->
    (Qsum (map (yearly k) yt) == Qsum (map (monthly k) df))%Q.
Proof.
  intros df yt k Hyt.
  assert (Heq : yt = groupby_year_sum df)
    by (destruct df; cbn [yearly_totals] in Hyt; congruence).
  subst yt. apply groupby_year_sum_total.
Qed.

Lemma yearly_totals_preserve_the_grand_total_witness :
  (Qsum (map (yearly Total) (groupby_year_sum shuffled_frame)) == 23)%Q.
Proof.
  rewrite (yearly_totals_preserve_the_grand_total shuffled_frame
             (groupby_year_sum shuffled_frame) Total);
    reflexivity.
Defined.

(** ** The input form *)

Lemma percent_is_a_rate (z : Z) :
  0 <= z <= 100 -> (0 <= inject_Z z / 100)%Q /\ (inject_Z z / 100 <= 1)%Q.
Proof.
  intro Hz. unfold Qle, Qdiv, Qmult, Qinv, inject_Z. cbn. lia.
Qed.

Lemma form_params_valid (f : Form) :
  widget_bounds f -> valid_params (form_params f).
Proof.
  intros [Hmonths Hdefault Hoverride Hmode Hcanc Hchurn Hlife Hlmode
          Hcontract Hfree Hintro Hflat Hpct Hpolicy Hptype Hpayout Hduration].
  assert (Hm : 1 <= months_slider f)
    by (cbn in Hmonths; intuition lia).
  unfold form_params.
  destruct (use_override f);
    destruct (String.prefix "Fixed" (cancellations_mode_radio f));
    destruct (String.eqb_spec (contract_type_radio f) "Intro + Recurring");
    constructor; cbn;
    try apply percent_is_a_rate; try assumption; try lia;
    try (split; discriminate); try discriminate;
    try (rewrite <- (Zle_Qle 0); lia);
    try (split; [rewrite <- (Zle_Qle 0) | rewrite <- (Zle_Qle _ 100)]; lia);
    try solve [apply Hoverride; reflexivity];
    try solve [apply Hintro; assumption];
    try solve [apply Hflat; assumption];
    try solve [apply Hcanc; reflexivity];
    try solve [destruct Hintro as [Hlen _]; [assumption | lia]].
Qed.

(** X17.  Whatever the state of the form, the parameters it passes to the
    engine satisfy the engine's input constraints; the mode key is "Fixed"
    or "Churn"; the override is off (month 0) or names a month of the
    horizon; and the churn clamp leaves the rate at the percentage over
    100. *)
Theorem form_params_within_constraints :
  forall f : Form,
    widget_bounds f ->
    let p := form_params f in
    valid_params p /\
    (cancellations_mode p = "Fixed"%string \/
     cancellations_mode p = "Churn"%string) /\
    (override_month p = 0 \/ 1 <= override_month p <= months p) /\
    (churn_rate_of (churn_percent p) == churn_percent p / 100)%Q.
Proof.
  intros f Hf p. split; [now apply form_params_valid |].
  destruct Hf as [_ _ Hoverride _ _ Hchurn _ _ _ _ _ _ _ _ _ _ _].
  subst p. unfold form_params.
  destruct (use_override f);
    destruct (String.prefix "Fixed" (cancellations_mode_radio f));
    destruct (String.eqb (contract_type_radio f) "Intro + Recurring");
    cbn; (split; [tauto |]); (split; [tauto || (right; now apply Hoverride) |]);
    try reflexivity.
  all: specialize (Hchurn eq_refl).
  all: unfold churn_rate_of.
  all: rewrite Q.min_l, Q.max_l;
    try reflexivity;
    unfold Qle, Qdiv, Qmult, Qinv, inject_Z; cbn; lia.
Qed.

Lemma form_at_rest_bounds : widget_bounds form_at_rest.
Proof.
  constructor; cbn; try lia; try tauto; try discriminate;
    try (intros _; repeat split; try lia; discriminate).
Qed.

Lemma form_params_within_constraints_witness :
  valid_params (form_params form_at_rest) /\
  override_month (form_params form_at_rest) = 0.
Proof.
  destruct (form_params_within_constraints form_at_rest form_at_rest_bounds)
    as (Hvalid & _ & _ & _).
  split; [exact Hvalid | reflexivity].
Defined.

Lemma form_params_months (f : Form) :
  months (form_params f) = months_slider f.
Proof.
  unfold form_params.
  destruct (use_override f);
    destruct (String.prefix "Fixed" (cancellations_mode_radio f));
    destruct (String.eqb (contract_type_radio f) "Intro + Recurring");
    reflexivity.
Qed.

Lemma groupby_year_sum_years (p : Params) :
  1 <= months p ->
  map Year (groupby_year_sum (build_monthly_dataframe p)) =
  range 1 ((months p - 1) / 12 + 2).
Proof.
  intro Hn.
  destruct (groupby_year_sum_grouped (build_monthly_dataframe p))
    as [Hsorted Hkeys _].
  apply ascending_unique; [exact Hsorted | apply range_ascending |].
  intro y. rewrite Hkeys, build_monthly_dataframe_years, In_range by exact Hn.
  lia.
Qed.

Lemma form_years (f : Form) :
  widget_bounds f ->
  map Year (groupby_year_sum (build_monthly_dataframe (form_params f))) =
  range 1 (months_slider f / 12 + 1).
Proof.
  intro Hf. pose proof (months_steps f Hf) as Hsteps.
  pose proof (form_params_months f) as Hmonths.
  rewrite groupby_year_sum_years by (cbn in Hsteps; intuition lia).
  rewrite Hmonths. f_equal. cbn in Hsteps.
  destruct Hsteps as [<- | [<- | [<- | [<- | [<- | []]]]]]; reflexivity.
Qed.

Lemma form_year_months (f : Form) (y : Z) :
  widget_bounds f -> 1 <= y <= months_slider f / 12 ->
  map Month (months_of_year y (build_monthly_dataframe (form_params f))) =
  range (12 * (y - 1) + 1) (12 * y + 1).
Proof.
  intros Hf Hy. pose proof (months_steps f Hf) as Hsteps.
  rewrite months_of_year_members by lia. rewrite form_params_months.
  f_equal. cbn in Hsteps.
  destruct Hsteps as [H | [H | [H | [H | [H | []]]]]];
    rewrite <- H in *; cbn in Hy; lia.
Qed.

Lemma form_frame_nonempty (f : Form) :
  widget_bounds f ->
  yearly_totals (build_monthly_dataframe (form_params f)) =
  Some (groupby_year_sum (build_monthly_dataframe (form_params f))).
Proof.
  intro Hf. pose proof (months_steps f Hf) as Hsteps.
  pose proof (form_params_months f) as Hmonths.
  destruct (build_monthly_dataframe (form_params f)) as [| r df] eqn:Hdf;
    [| reflexivity].
  pose proof (build_monthly_dataframe_length (form_params f)) as Hlen.
  rewrite Hdf, Hmonths in Hlen. cbn in Hlen, Hsteps. intuition lia.
Qed.

(** X18.  The form only offers horizons of whole years, so the yearly table
    it shows has exactly [months / 12] rows, for the years 1 to
    [months / 12], and each of them is a full year: the months filed under
    year [y] are the twelve months [12 (y - 1) + 1 .. 12 y], and each of
    the four totals of the year is the sum of its column over those twelve
    months. *)
Theorem form_yearly_totals_are_full_years :
  forall f : Form,
    widget_bounds f ->
    let df := build_monthly_dataframe (form_params f) in
    exists yt : list YearRow,
      yearly_totals df = Some yt /\
      List.length yt = Z.to_nat (months_slider f / 12) /\
      map Year yt = range 1 (months_slider f / 12 + 1) /\
      forall g : YearRow,
        In g yt ->
        map Month (months_of_year (Year g) df) =
          range (12 * (Year g - 1) + 1) (12 * Year g + 1) /\
        List.length (months_of_year (Year g) df) = 12%nat /\
        forall k : Metric,
          (yearly k g ==
           Qsum (map (monthly k) (months_of_year (Year g) df)))%Q.
Proof.
  intros f Hf df. subst df.
  exists (groupby_year_sum (build_monthly_dataframe (form_params f))).
  pose proof (form_years f Hf) as Hyears.
  destruct (groupby_year_sum_grouped
              (build_monthly_dataframe (form_params f))) as [_ _ Hsums].
  split; [now apply form_frame_nonempty | split; [| split; [exact Hyears |]]].
  - rewrite <- (length_map Year), Hyears, range_length. f_equal. lia.
  - intros g Hg.
    assert (Hy : 1 <= Year g <= months_slider f / 12).
    { apply (in_map Year) in Hg. rewrite Hyears in Hg.
      apply In_range in Hg. lia. }
    pose proof (form_year_months f (Year g) Hf Hy) as Hmembers.
    split; [exact Hmembers | split].
    + rewrite <- (length_map Month), Hmembers, range_length. lia.
    + intro k. now apply Hsums.
Qed.

Lemma form_yearly_totals_are_full_years_witness :
  exists yt : list YearRow,
    yearly_totals (build_monthly_dataframe (form_params form_at_rest))
    = Some yt /\
    map Year yt = [1; 2; 3] /\
    Forall (fun g =>
              List.length
                (months_of_year (Year g)
                   (build_monthly_dataframe (form_params form_at_rest)))
              = 12%nat /\
              (yearly Total g ==
               Qsum (map (monthly Total)
                       (months_of_year (Year g)
                          (build_monthly_dataframe
                             (form_params form_at_rest)))))%Q) yt.
Proof.
  destruct (form_yearly_totals_are_full_years form_at_rest form_at_rest_bounds)
    as (yt & Hsome & _ & Hyears & Hfull).
  exists yt. split; [exact Hsome | split; [exact Hyears |]].
  apply Forall_forall. intros g Hg.
  destruct (Hfull g Hg) as (_ & Htwelve & Hsum).
  split; [exact Htwelve | apply Hsum].
Defined.

(** ** Export *)

(** *** The loops, in closed form *)

Lemma write_inputs_closed (inputs : list (string * CellValue)) (ws : Sheet)
      (r : Z) :
  fold_left write_input inputs (ws, r) =
  (ws ++ input_cells r inputs, r + Z.of_nat (List.length inputs)).
Proof.
  revert ws r. induction inputs as [| [k v] rest IH]; intros ws r.
  - cbn. now rewrite app_nil_r, Z.add_0_r.
  - cbn [fold_left write_input input_cells List.length].
    rewrite IH, <- app_assoc. cbn [app]. f_equal. lia.
Qed.

Lemma write_headers_closed (start_row : Z) (headers : list string)
      (ws : Sheet) (col : Z) :
  fold_left (write_header start_row) (enumerate col headers) ws =
  ws ++ line_cells start_row col (map CStr headers).
Proof.
  revert ws col. induction headers as [| h rest IH]; intros ws col.
  - cbn. now rewrite app_nil_r.
  - cbn [enumerate fold_left write_header map line_cells].
    rewrite IH, <- app_assoc. reflexivity.
Qed.

(** Reading a row by the keys of a row never raises. *)
Lemma write_row_closed (start_row i : Z) (row r0 : Row) (ws : Sheet) :
  write_row start_row (map fst (row_items r0)) (Some ws) (i, row) =
  Some (ws ++ line_cells (start_row + i) 1 (exported_values row)).
Proof.
  cbn. rewrite <- !app_assoc. reflexivity.
Qed.

Lemma write_rows_closed (start_row : Z) (r0 : Row) (df : list Row)
      (ws : Sheet) (i : Z) :
  fold_left (write_row start_row (map fst (row_items r0)))
            (enumerate i df) (Some ws) =
  Some (ws ++ frame_cells (start_row + i) df).
Proof.
  revert ws i. induction df as [| r rest IH]; intros ws i.
  - cbn. now rewrite app_nil_r.
  - cbn [enumerate fold_left frame_cells].
    rewrite write_row_closed, IH, <- app_assoc.
    now rewrite Z.add_assoc.
Qed.

Lemma write_years_closed (yt : list YearRow) (ws2 : Sheet) (idx : Z) :
  fold_left write_year (enumerate idx yt) ws2 =
  ws2 ++ year_cells (5 + idx) yt.
Proof.
  revert ws2 idx. induction yt as [| g rest IH]; intros ws2 idx.
  - cbn. now rewrite app_nil_r.
  - cbn [enumerate fold_left write_year year_cells].
    rewrite IH, <- app_assoc. cbn [line_cells year_values app].
    now rewrite Z.add_assoc.
Qed.

(** The workbook of a frame with at least one row. *)
Lemma to_excel_values_closed (r : Row) (df : list Row)
      (inputs : list (string * CellValue)) (generated : string) :
  let n := Z.of_nat (List.length inputs) in
  to_excel_values (r :: df) inputs generated =
  Some {| Sheet1 :=
            [(1, 1, CStr "Inputs")] ++ input_cells 2 inputs ++
            line_cells (n + 3) 1 (map CStr (columns (r :: df))) ++
            frame_cells (n + 4) (r :: df);
          Foglio1 :=
            [(1, 1, CStr "Payments – Summary");
             (2, 1, CStr "Generated");
             (2, 2, CStr generated)] ++
            match groupby_year_sum (r :: df) with
            | [] => []
            | yt =>
                line_cells 4 1
                  [CStr "Year"; CStr "Client Payments (Gross)";
                   CStr "New Sale Income"; CStr "Commission from Clients";
                   CStr "Total Yearly Earnings"] ++
                year_cells 5 yt
            end |}.
Proof.
  intro n. unfold to_excel_values.
  rewrite write_inputs_closed. fold n.
  cbn [columns]. rewrite write_headers_closed, write_rows_closed.
  cbn [yearly_totals].
  replace (2 + n + 1) with (n + 3) by lia.
  replace (n + 3 + 1) with (n + 4) by lia.
  rewrite <- !app_assoc. f_equal. f_equal.
  destruct (groupby_year_sum (r :: df)) as [| g yt] eqn:Hyt.
  - reflexivity.
  - rewrite write_years_closed. rewrite <- app_assoc. reflexivity.
Qed.

(** *** Reading cells back *)

Lemma cell_app (l1 l2 : Sheet) (row col : Z) :
  cell (l1 ++ l2) row col =
  match cell l2 row col with
  | Some v => Some v
  | None => cell l1 row col
  end.
Proof.
  induction l1 as [| [[r c] v] l1 IH]; cbn [app cell].
  - destruct (cell l2 row col); reflexivity.
  - rewrite IH. destruct (cell l2 row col); reflexivity.
Qed.

Lemma cell_outside (lo hi : Z) (ws : Sheet) (row col : Z) :
  rows_within lo hi ws -> row < lo \/ hi <= row -> cell ws row col = None.
Proof.
  intros Hws Hrow. induction Hws as [| [[r c] v] ws He _ IH]; cbn [cell].
  - reflexivity.
  - rewrite IH. cbn in He.
    destruct (Z.eqb_spec r row); [lia | reflexivity].
Qed.

Lemma rows_within_app (lo hi : Z) (l1 l2 : Sheet) :
  rows_within lo hi l1 -> rows_within lo hi l2 -> rows_within lo hi (l1 ++ l2).
Proof. intros H1 H2. apply Forall_app. now split. Qed.

Lemma rows_within_weaken (lo hi lo' hi' : Z) (ws : Sheet) :
  lo' <= lo -> hi <= hi' -> rows_within lo hi ws -> rows_within lo' hi' ws.
Proof.
  intros Hlo Hhi Hws. eapply Forall_impl; [| exact Hws].
  cbn. intros e He. lia.
Qed.

Lemma line_cells_rows (row col : Z) (values : list CellValue) :
  rows_within row (row + 1) (line_cells row col values).
Proof.
  revert col. induction values as [| v rest IH]; intro col;
    cbn [line_cells]; constructor; [cbn; lia | apply IH].
Qed.

Lemma input_cells_rows (r : Z) (inputs : list (string * CellValue)) :
  rows_within r (r + Z.of_nat (List.length inputs)) (input_cells r inputs).
Proof.
  revert r. induction inputs as [| [k v] rest IH]; intro r;
    cbn [input_cells List.length]; [constructor |].
  constructor; [cbn; lia |]. constructor; [cbn; lia |].
  eapply rows_within_weaken; [| | apply IH]; lia.
Qed.

Lemma frame_cells_rows (row : Z) (df : list Row) :
  rows_within row (row + Z.of_nat (List.length df)) (frame_cells row df).
Proof.
  revert row. induction df as [| r rest IH]; intro row;
    cbn [frame_cells List.length]; [constructor |].
  apply rows_within_app.
  - eapply rows_within_weaken; [| | apply line_cells_rows]; lia.
  - eapply rows_within_weaken; [| | apply IH]; lia.
Qed.

Lemma year_cells_rows (row : Z) (yt : list YearRow) :
  rows_within row (row + Z.of_nat (List.length yt)) (year_cells row yt).
Proof.
  revert row. induction yt as [| g rest IH]; intro row;
    cbn [year_cells List.length]; [constructor |].
  apply rows_within_app.
  - eapply rows_within_weaken; [| | apply line_cells_rows]; lia.
  - eapply rows_within_weaken; [| | apply IH]; lia.
Qed.

(** A line holds its values in consecutive columns, and nothing to the
    left of them. *)
Lemma cell_line_left (row col : Z) (values : list CellValue) (c : Z) :
  c < col -> cell (line_cells row col values) row c = None.
Proof.
  revert col. induction values as [| v rest IH]; intros col Hc;
    cbn [line_cells cell]; [reflexivity |].
  rewrite IH by lia. destruct (Z.eqb_spec col c); [lia |].
  now rewrite andb_false_r.
Qed.

Lemma cell_line (row col : Z) (values : list CellValue) (j : nat) :
  cell (line_cells row col values) row (col + Z.of_nat j) =
  nth_error values j.
Proof.
  revert col j. induction values as [| v rest IH]; intros col j.
  - destruct j; reflexivity.
  - cbn [line_cells cell]. destruct j as [| j].
    + rewrite cell_line_left by lia. cbn [nth_error].
      rewrite Z.add_0_r, !Z.eqb_refl. reflexivity.
    + replace (col + Z.of_nat (S j)) with (col + 1 + Z.of_nat j) by lia.
      rewrite IH. cbn [nth_error].
      destruct (nth_error rest j); [reflexivity |].
      destruct (Z.eqb_spec col (col + 1 + Z.of_nat j)); [lia |].
      now rewrite andb_false_r.
Qed.

Lemma cell_inputs (r : Z) (inputs : list (string * CellValue)) (i : nat)
      (k : string) (v : CellValue) :
  nth_error inputs i = Some (k, v) ->
  cell (input_cells r inputs) (r + Z.of_nat i) 1 = Some (CStr k) /\
  cell (input_cells r inputs) (r + Z.of_nat i) 2 = Some v.
Proof.
  revert r i. induction inputs as [| [k0 v0] rest IH]; intros r i Hi.
  - destruct i; discriminate Hi.
  - change (input_cells r ((k0, v0) :: rest))
      with ([(r, 1, CStr k0); (r, 2, v0)] ++ input_cells (r + 1) rest).
    rewrite !cell_app. destruct i as [| i].
    + injection Hi as -> ->. rewrite Z.add_0_r.
      rewrite !(cell_outside _ _ _ _ _ (input_cells_rows (r + 1) rest))
        by lia.
      cbn. rewrite !Z.eqb_refl. split; reflexivity.
    + cbn [nth_error] in Hi.
      replace (r + Z.of_nat (S i)) with (r + 1 + Z.of_nat i) by lia.
      destruct (IH (r + 1) i Hi) as [-> ->]. split; reflexivity.
Qed.

Lemma cell_frame (row : Z) (df : list Row) (i j : nat) (r : Row) :
  nth_error df i = Some r ->
  cell (frame_cells row df) (row + Z.of_nat i) (1 + Z.of_nat j) =
  nth_error (exported_values r) j.
Proof.
  revert row i. induction df as [| r0 rest IH]; intros row i Hi.
  - destruct i; discriminate Hi.
  - cbn [frame_cells]. rewrite cell_app. destruct i as [| i].
    + injection Hi as ->. rewrite Z.add_0_r.
      rewrite (cell_outside _ _ _ _ _ (frame_cells_rows (row + 1) rest))
        by lia.
      apply cell_line.
    + cbn [nth_error] in Hi.
      replace (row + Z.of_nat (S i)) with (row + 1 + Z.of_nat i) by lia.
      rewrite (IH (row + 1) i Hi).
      destruct (nth_error (exported_values r) j) eqn:Hj; [reflexivity |].
      apply (cell_outside _ _ _ _ _ (line_cells_rows row 1 _)). lia.
Qed.

Lemma cell_years (row : Z) (yt : list YearRow) (i j : nat) (g : YearRow) :
  nth_error yt i = Some g ->
  cell (year_cells row yt) (row + Z.of_nat i) (1 + Z.of_nat j) =
  nth_error (year_values g) j.
Proof.
  revert row i. induction yt as [| g0 rest IH]; intros row i Hi.
  - destruct i; discriminate Hi.
  - cbn [year_cells]. rewrite cell_app. destruct i as [| i].
    + injection Hi as ->. rewrite Z.add_0_r.
      rewrite (cell_outside _ _ _ _ _ (year_cells_rows (row + 1) rest))
        by lia.
      apply cell_line.
    + cbn [nth_error] in Hi.
      replace (row + Z.of_nat (S i)) with (row + 1 + Z.of_nat i) by lia.
      rewrite (IH (row + 1) i Hi).
      destruct (nth_error (year_values g) j) eqn:Hj; [reflexivity |].
      apply (cell_outside _ _ _ _ _ (line_cells_rows row 1 _)). lia.
Qed.

Lemma cell_app_left (lo hi : Z) (l1 l2 : Sheet) (row col : Z) :
  rows_within lo hi l2 -> row < lo \/ hi <= row ->
  cell (l1 ++ l2) row col = cell l1 row col.
Proof.
  intros H2 Hrow. now rewrite cell_app, (cell_outside lo hi l2 row col).
Qed.

Lemma cell_app_right (lo hi : Z) (l1 l2 : Sheet) (row col : Z) :
  rows_within lo hi l1 -> row < lo \/ hi <= row ->
  cell (l1 ++ l2) row col = cell l2 row col.
Proof.
  intros H1 Hrow. rewrite cell_app, (cell_outside lo hi l1 row col) by assumption.
  destruct (cell l2 row col); reflexivity.
Qed.

Lemma to_excel_values_sheet1 (r : Row) (df : list Row)
      (inputs : list (string * CellValue)) (generated : string)
      (wb : Workbook) :
  to_excel_values (r :: df) inputs generated = Some wb ->
  Sheet1 wb =
    [(1, 1, CStr "Inputs")] ++ input_cells 2 inputs ++
    line_cells (Z.of_nat (List.length inputs) + 3) 1
               (map CStr (columns (r :: df))) ++
    frame_cells (Z.of_nat (List.length inputs) + 4) (r :: df).
Proof.
  intro Hwb. rewrite to_excel_values_closed in Hwb.
  injection Hwb as <-. reflexivity.
Qed.

Lemma to_excel_values_foglio1 (r : Row) (df : list Row)
      (inputs : list (string * CellValue)) (generated : string)
      (wb : Workbook) (g : YearRow) (yt : list YearRow) :
  to_excel_values (r :: df) inputs generated = Some wb ->
  groupby_year_sum (r :: df) = g :: yt ->
  Foglio1 wb =
    [(1, 1, CStr "Payments – Summary");
     (2, 1, CStr "Generated");
     (2, 2, CStr generated)] ++
    line_cells 4 1
      [CStr "Year"; CStr "Client Payments (Gross)"; CStr "New Sale Income";
       CStr "Commission from Clients"; CStr "Total Yearly Earnings"] ++
    year_cells 5 (g :: yt).
Proof.
  intros Hwb Hyt. rewrite to_excel_values_closed in Hwb.
  injection Hwb as <-. cbn [Foglio1]. rewrite Hyt. reflexivity.
Qed.

Lemma to_excel_values_nil (inputs : list (string * CellValue))
      (generated : string) :
  to_excel_values [] inputs generated = None.
Proof. unfold to_excel_values. rewrite write_inputs_closed. reflexivity. Qed.

(** The cells of the first sheet, read back. *)
Lemma first_sheet_cells :
  forall (df : list Row) (inputs : list (string * CellValue))
         (generated : string) (wb : Workbook),
    to_excel_values df inputs generated = Some wb ->
    let n := Z.of_nat (List.length inputs) in
    cell (Sheet1 wb) 1 1 = Some (CStr "Inputs") /\
    (forall i k v,
        nth_error inputs i = Some (k, v) ->
        cell (Sheet1 wb) (2 + Z.of_nat i) 1 = Some (CStr k) /\
        cell (Sheet1 wb) (2 + Z.of_nat i) 2 = Some v) /\
    (forall col, cell (Sheet1 wb) (n + 2) col = None) /\
    (forall j h,
        nth_error (columns df) j = Some h ->
        cell (Sheet1 wb) (n + 3) (1 + Z.of_nat j) = Some (CStr h)) /\
    (forall i r j h v,
        nth_error df i = Some r ->
        nth_error (row_items r) j = Some (h, v) ->
        cell (Sheet1 wb) (n + 4 + Z.of_nat i) (1 + Z.of_nat j) =
        Some (float_if_number v)).
Proof.
  intros df inputs generated wb Hwb n.
  destruct df as [| r0 df];
    [rewrite to_excel_values_nil in Hwb; discriminate Hwb |].
  rewrite (to_excel_values_sheet1 _ _ _ _ _ Hwb). fold n.
  set (A := [(1, 1, CStr "Inputs")]).
  set (B := input_cells 2 inputs).
  set (C := line_cells (n + 3) 1 (map CStr (columns (r0 :: df)))).
  set (D := frame_cells (n + 4) (r0 :: df)).
  set (len := Z.of_nat (List.length (r0 :: df))).
  assert (HA : rows_within 1 2 A) by (repeat constructor; cbn; lia).
  assert (HB : rows_within 2 (n + 2) B).
  { replace (n + 2) with (2 + n) by lia. apply input_cells_rows. }
  assert (HC : rows_within (n + 3) (n + 4) C).
  { replace (n + 4) with (n + 3 + 1) by lia. apply line_cells_rows. }
  assert (HD : rows_within (n + 4) (n + 4 + len) D)
    by apply frame_cells_rows.
  assert (HCD : rows_within (n + 3) (n + 4 + len) (C ++ D)).
  { subst len. apply rows_within_app;
      (eapply rows_within_weaken; [| | eassumption]); lia. }
  assert (HBCD : rows_within 2 (n + 4 + len) (B ++ C ++ D)).
  { subst len. apply rows_within_app;
      (eapply rows_within_weaken; [| | eassumption]); lia. }
  split; [| split; [| split; [| split]]].
  - rewrite (cell_app_left 2 (n + 4 + len)) by (try exact HBCD; lia).
    reflexivity.
  - intros i k v Hi.
    assert (Hlt : (i < List.length inputs)%nat)
      by (apply nth_error_Some; congruence).
    rewrite !(cell_app_right 1 2 A) by (try exact HA; lia).
    rewrite !(cell_app_left (n + 3) (n + 4 + len) B)
      by (try exact HCD; lia).
    now apply cell_inputs.
  - intro col.
    rewrite (cell_app_right 1 2 A) by (try exact HA; lia).
    rewrite (cell_app_left (n + 3) (n + 4 + len) B) by (try exact HCD; lia).
    apply (cell_outside 2 (n + 2)); [exact HB | lia].
  - intros j h Hj.
    rewrite (cell_app_right 1 2 A) by (try exact HA; lia).
    rewrite (cell_app_right 2 (n + 2) B) by (try exact HB; lia).
    rewrite (cell_app_left (n + 4) (n + 4 + len) C) by (try exact HD; lia).
    subst C. rewrite cell_line. now apply map_nth_error.
  - intros i r j h v Hi Hj.
    rewrite (cell_app_right 1 2 A) by (try exact HA; lia).
    rewrite (cell_app_right 2 (n + 2) B) by (try exact HB; lia).
    rewrite (cell_app_right (n + 3) (n + 4) C) by (try exact HC; lia).
    subst D. rewrite (cell_frame _ _ _ _ r Hi).
    unfold exported_values.
    apply (map_nth_error (fun kv => float_if_number (snd kv)) _ _ Hj).
Qed.


(** X20.  Layout of the first sheet.  "Inputs" is in A1; the item of
    [inputs] at index [i] has its key in column A and its value in column
    B of row [2 + i]; the next row is empty; the column names follow in row
    [n + 3], where [n] is the number of inputs; and the row of the frame
    at index [i] is in row [n + 4 + i], column by column, its numbers as
    floats. *)
Theorem export_first_sheet_layout :
  forall (df : list Row) (inputs : list (string * CellValue))
         (generated : string) (wb : Workbook),
    to_excel_values df inputs generated = Some wb ->
    let n := Z.of_nat (List.length inputs) in
    cell (Sheet1 wb) 1 1 = Some (CStr "Inputs") /\
    (forall i k v,
        nth_error inputs i = Some (k, v) ->
        cell (Sheet1 wb) (2 + Z.of_nat i) 1 = Some (CStr k) /\
        cell (Sheet1 wb) (2 + Z.of_nat i) 2 = Some v) /\
    (forall col, cell (Sheet1 wb) (n + 2) col = None) /\
    (forall j h,
        nth_error (columns df) j = Some h ->
        cell (Sheet1 wb) (n + 3) (1 + Z.of_nat j) = Some (CStr h)) /\
    (forall i r j h v,
        nth_error df i = Some r ->
        nth_error (row_items r) j = Some (h, v) ->
        cell (Sheet1 wb) (n + 4 + Z.of_nat i) (1 + Z.of_nat j) =
        Some (float_if_number v)).
Proof.
  intros df inputs generated wb Hwb.
  now apply (first_sheet_cells df inputs generated).
Qed.

Lemma export_first_sheet_layout_witness :
  exists wb,
    to_excel_values shuffled_frame [("Months"%string, CInt 3)] "now" = Some wb
    /\ cell (Sheet1 wb) 4 1 = Some (CStr "Month")
    /\ cell (Sheet1 wb) 6 11 = Some (CFloat 7).
Proof.
  destruct (to_excel_values shuffled_frame [("Months"%string, CInt 3)] "now")
    as [wb |] eqn:Hwb; [| discriminate Hwb].
  exists wb. split; [reflexivity |].
  destruct (export_first_sheet_layout _ _ _ _ Hwb)
    as (_ & _ & _ & Hheader & Hdata).
  split.
  - apply (Hheader 0%nat). reflexivity.
  - apply (Hdata 1%nat (earnings_row 3 7) 10%nat
                 "Total Monthly Earnings"%string (CFloat 7));
      reflexivity.
Defined.

(** The cells of the summary sheet, read back. *)
Lemma summary_sheet_cells :
  forall (df : list Row) (inputs : list (string * CellValue))
         (generated : string) (wb : Workbook) (yt : list YearRow),
    to_excel_values df inputs generated = Some wb ->
    yearly_totals df = Some yt ->
    cell (Foglio1 wb) 1 1 = Some (CStr "Payments – Summary") /\
    cell (Foglio1 wb) 2 1 = Some (CStr "Generated") /\
    cell (Foglio1 wb) 2 2 = Some (CStr generated) /\
    (forall col, cell (Foglio1 wb) 3 col = None) /\
    (forall j h,
        nth_error ["Year"; "Client Payments (Gross)"; "New Sale Income";
                   "Commission from Clients"; "Total Yearly Earnings"]%string
                  j = Some h ->
        cell (Foglio1 wb) 4 (1 + Z.of_nat j) = Some (CStr h)) /\
    (forall idx g j v,
        nth_error yt idx = Some g ->
        nth_error (year_values g) j = Some v ->
        cell (Foglio1 wb) (5 + Z.of_nat idx) (1 + Z.of_nat j) = Some v).
Proof.
  intros df inputs generated wb yt Hwb Hyt.
  destruct df as [| r0 df]; [discriminate Hyt |].
  cbn [yearly_totals] in Hyt. injection Hyt as <-.
  destruct (groupby_year_sum (r0 :: df)) as [| g0 yt] eqn:Hgroup.
  { pose proof (groupby_year_sum_grouped (r0 :: df)) as [_ Hkeys _].
    rewrite Hgroup in Hkeys. exfalso.
    apply (proj2 (Hkeys (year_of r0))). left. reflexivity. }
  rewrite (to_excel_values_foglio1 _ _ _ _ _ _ _ Hwb Hgroup).
  set (A := [(1, 1, CStr "Payments – Summary"); (2, 1, CStr "Generated");
             (2, 2, CStr generated)]).
  set (B := line_cells 4 1 _).
  set (C := year_cells 5 (g0 :: yt)).
  set (len := Z.of_nat (List.length (g0 :: yt))).
  assert (HA : rows_within 1 3 A) by (repeat constructor; cbn; lia).
  assert (HB : rows_within 4 5 B) by apply (line_cells_rows 4).
  assert (HC : rows_within 5 (5 + len) C) by apply year_cells_rows.
  assert (HBC : rows_within 4 (5 + len) (B ++ C)).
  { subst len. apply rows_within_app;
      (eapply rows_within_weaken; [| | eassumption]); lia. }
  split; [| split; [| split; [| split; [| split]]]].
  - rewrite (cell_app_left 4 (5 + len)) by (try exact HBC; lia). reflexivity.
  - rewrite (cell_app_left 4 (5 + len)) by (try exact HBC; lia). reflexivity.
  - rewrite (cell_app_left 4 (5 + len)) by (try exact HBC; lia). reflexivity.
  - intro col.
    rewrite (cell_app_left 4 (5 + len)) by (try exact HBC; lia).
    apply (cell_outside 1 3); [exact HA | lia].
  - intros j h Hj.
    rewrite (cell_app_right 1 3 A) by (try exact HA; lia).
    rewrite (cell_app_left 5 (5 + len) B) by (try exact HC; lia).
    subst B. rewrite cell_line.
    apply (map_nth_error CStr _ _ Hj).
  - intros idx g j v Hidx Hj.
    rewrite (cell_app_right 1 3 A) by (try exact HA; lia).
    rewrite (cell_app_right 4 5 B) by (try exact HB; lia).
    subst C. rewrite (cell_years _ _ _ _ g Hidx). exact Hj.
Qed.

(** X21.  Layout of the summary sheet.  Its title is in A1, "Generated"
    and the time stamp in A2 and B2, row 3 is empty, the five column names
    are in row 4, and the yearly row at index [idx] is in row [5 + idx]:
    year, gross client payments, new sale income, commission from clients
    and total yearly earnings in columns A to E. *)
Theorem export_summary_sheet_layout :
  forall (df : list Row) (inputs : list (string * CellValue))
         (generated : string) (wb : Workbook) (yt : list YearRow),
    to_excel_values df inputs generated = Some wb ->
    yearly_totals df = Some yt ->
    cell (Foglio1 wb) 1 1 = Some (CStr "Payments – Summary") /\
    cell (Foglio1 wb) 2 1 = Some (CStr "Generated") /\
    cell (Foglio1 wb) 2 2 = Some (CStr generated) /\
    (forall col, cell (Foglio1 wb) 3 col = None) /\
    (forall j h,
        nth_error ["Year"; "Client Payments (Gross)"; "New Sale Income";
                   "Commission from Clients"; "Total Yearly Earnings"]%string
                  j = Some h ->
        cell (Foglio1 wb) 4 (1 + Z.of_nat j) = Some (CStr h)) /\
    (forall idx g j v,
        nth_error yt idx = Some g ->
        nth_error (year_values g) j = Some v ->
        cell (Foglio1 wb) (5 + Z.of_nat idx) (1 + Z.of_nat j) = Some v).
Proof.
  intros df inputs generated wb yt Hwb Hyt.
  now apply (summary_sheet_cells df inputs generated).
Qed.

Lemma export_summary_sheet_layout_witness :
  exists wb,
    to_excel_values shuffled_frame [("Months"%string, CInt 3)] "now" = Some wb
    /\ cell (Foglio1 wb) 2 2 = Some (CStr "now")
    /\ cell (Foglio1 wb) 6 1 = Some (CInt 2).
Proof.
  destruct (to_excel_values shuffled_frame [("Months"%string, CInt 3)] "now")
    as [wb |] eqn:Hwb; [| discriminate Hwb].
  exists wb. split; [reflexivity |].
  destruct (export_summary_sheet_layout
              shuffled_frame _ _ wb (groupby_year_sum shuffled_frame) Hwb)
    as (_ & _ & Hstamp & _ & _ & Hyears); [reflexivity |].
  split; [exact Hstamp |].
  apply (Hyears 1%nat (nth 1 (groupby_year_sum shuffled_frame)
                           (open_group 0 blank_row)) 0%nat);
    reflexivity.
Defined.

Lemma nth_error_range (lo hi : Z) (i : nat) :
  Z.of_nat i < hi - lo -> nth_error (range lo hi) i = Some (lo + Z.of_nat i).
Proof.
  intro Hi. unfold range.
  rewrite (nth_error_nth' _ (lo + Z.of_nat 0))
    by (rewrite length_map, length_seq; lia).
  rewrite (map_nth (fun k => lo + Z.of_nat k)), seq_nth by lia.
  reflexivity.
Qed.

(** X22.  The workbook the application offers for download.  The script
    passes 22 inputs, so whatever the state of the form, when the export
    returns a workbook its first sheet has the inputs in rows 2 to 23
    ("Months" and the horizon first), row 24 empty, the eleven column names
    of the monthly table in row 25 and month [m] in row [25 + m], column by
    column with numbers as floats; and its summary sheet has year [y] in
    row [4 + y]: the year and its four totals, each the sum of its column
    over the months of that year. *)
Theorem application_export_layout :
  forall (f : Form) (generated : string) (wb : Workbook),
    widget_bounds f ->
    let p := form_params f in
    let df := build_monthly_dataframe p in
    to_excel_values df (export_inputs f) generated = Some wb ->
    cell (Sheet1 wb) 2 1 = Some (CStr "Months") /\
    cell (Sheet1 wb) 2 2 = Some (CInt (months_slider f)) /\
    (forall i k v,
        nth_error (export_inputs f) i = Some (k, v) ->
        cell (Sheet1 wb) (2 + Z.of_nat i) 1 = Some (CStr k) /\
        cell (Sheet1 wb) (2 + Z.of_nat i) 2 = Some v) /\
    (forall col, cell (Sheet1 wb) 24 col = None) /\
    (forall j h,
        nth_error ["Month"; "New Clients"; "Cancellations"; "Mode";
                   "Net Activations"; "Signed SMEs (Cumulative)";
                   "Paying SMEs (this month)"; "Client Payments (Gross)";
                   "New Sale Income"; "Commission from Clients";
                   "Total Monthly Earnings"]%string j = Some h ->
        cell (Sheet1 wb) 25 (1 + Z.of_nat j) = Some (CStr h)) /\
    (forall m,
        1 <= m <= months_slider f ->
        cell (Sheet1 wb) (25 + m) 1 = Some (CFloat (inject_Z m)) /\
        forall j h v,
          nth_error (row_items (row_of_month p m)) j = Some (h, v) ->
          cell (Sheet1 wb) (25 + m) (1 + Z.of_nat j) =
          Some (float_if_number v)) /\
    (forall y,
        1 <= y <= months_slider f / 12 ->
        exists g : YearRow,
          Year g = y /\
          (forall j v,
              nth_error (year_values g) j = Some v ->
              cell (Foglio1 wb) (4 + y) (1 + Z.of_nat j) = Some v) /\
          (forall k : Metric,
              (yearly k g ==
               Qsum (map (monthly k) (months_of_year y df)))%Q)).
Proof.
  intros f generated wb Hf p df Hwb. subst df.
  pose proof (form_params_months f) as Hmonths. fold p in Hmonths.
  pose proof (months_steps f Hf) as Hsteps.
  assert (Hn : 12 <= months p)
    by (rewrite Hmonths; cbn in Hsteps; intuition lia).
  destruct (first_sheet_cells _ _ _ _ Hwb)
    as (_ & Hinputs & Hblank & Hheader & Hdata).
  change (Z.of_nat (List.length (export_inputs f))) with 22
    in Hblank, Hheader, Hdata.
  assert (Hcolumns : columns (build_monthly_dataframe p) =
                     map fst (row_items blank_row)).
  { destruct (build_monthly_dataframe p) as [| r0 df] eqn:Hdf;
      [| reflexivity].
    pose proof (build_monthly_dataframe_length p) as Hlen.
    rewrite Hdf in Hlen. cbn in Hlen. lia. }
  split; [| split; [| split; [| split; [| split; [| split]]]]].
  - apply (Hinputs 0%nat "Months"%string (CInt (months p))). reflexivity.
  - rewrite <- Hmonths.
    apply (Hinputs 0%nat "Months"%string (CInt (months p))). reflexivity.
  - exact Hinputs.
  - exact Hblank.
  - intros j h Hj. apply Hheader. rewrite Hcolumns. exact Hj.
  - intros m Hm.
    assert (Hrow : nth_error (build_monthly_dataframe p) (Z.to_nat (m - 1)) =
                   Some (row_of_month p m)).
    { unfold row_of_month. apply nth_error_nth'.
      apply row_of_month_index. lia. }
    replace (25 + m) with (22 + 4 + Z.of_nat (Z.to_nat (m - 1))) by lia.
    split.
    + pose proof (Hdata _ _ 0%nat "Month"%string
                        (CInt (Month (row_of_month p m))) Hrow eq_refl)
        as Hmonth.
      change (1 + Z.of_nat 0) with 1 in Hmonth. rewrite Hmonth.
      cbn [float_if_number]. rewrite row_of_month_Month by lia. reflexivity.
    + intros j h v Hj. now apply (Hdata _ _ j h v Hrow).
  - intros y Hy.
    pose proof (form_years f Hf) as Hyears. fold p in Hyears.
    pose proof (form_frame_nonempty f Hf) as Hyt. fold p in Hyt.
    destruct (summary_sheet_cells _ _ _ _ _ Hwb Hyt)
      as (_ & _ & _ & _ & _ & Hcells).
    destruct (groupby_year_sum_grouped (build_monthly_dataframe p))
      as [_ _ Hsums].
    assert (Hnth : nth_error (range 1 (months_slider f / 12 + 1))
                             (Z.to_nat (y - 1)) = Some y)
      by (rewrite nth_error_range by lia; f_equal; lia).
    rewrite <- Hyears, nth_error_map in Hnth.
    destruct (nth_error (groupby_year_sum (build_monthly_dataframe p))
                        (Z.to_nat (y - 1))) as [g |] eqn:Hg;
      [| discriminate Hnth].
    cbn [option_map] in Hnth.
    assert (Hyear : Year g = y) by (injection Hnth as Hnth; exact Hnth).
    exists g. split; [exact Hyear | split].
    + intros j v Hj.
      replace (4 + y) with (5 + Z.of_nat (Z.to_nat (y - 1))) by lia.
      now apply (Hcells _ g j v Hg).
    + intro k. rewrite <- Hyear. apply Hsums.
      now apply (nth_error_In _ _ Hg).
Qed.

(** The export of the form at rest returns a workbook. *)
Lemma form_at_rest_export :
  exists wb : Workbook,
    to_excel_values (build_monthly_dataframe (form_params form_at_rest))
                    (export_inputs form_at_rest) "now" = Some wb.
Proof.
  destruct (build_monthly_dataframe (form_params form_at_rest))
    as [| r0 df] eqn:Hdf.
  - pose proof (build_monthly_dataframe_length (form_params form_at_rest))
      as Hlen.
    rewrite Hdf in Hlen. discriminate Hlen.
  - rewrite to_excel_values_closed. eexists. reflexivity.
Qed.

Lemma application_export_layout_witness :
  exists wb : Workbook,
    to_excel_values (build_monthly_dataframe (form_params form_at_rest))
                    (export_inputs form_at_rest) "now" = Some wb /\
    cell (Sheet1 wb) 25 4 = Some (CStr "Mode") /\
    cell (Sheet1 wb) 36 1 = Some (CFloat 11) /\
    (forall col, cell (Sheet1 wb) 24 col = None).
Proof.
  destruct form_at_rest_export as [wb Hwb].
  exists wb. split; [exact Hwb |].
  destruct (application_export_layout
              form_at_rest "now" wb form_at_rest_bounds Hwb)
    as (_ & _ & _ & Hblank & Hheader & Hmonths & _).
  split; [| split; [| exact Hblank]].
  - apply (Hheader 3%nat). reflexivity.
  - apply (Hmonths 11). split; apply Z.leb_le; reflexivity.
Defined.

(** ** Further witnesses and an edge of the policy dispatch *)

Lemma monthly_table_shape_witness :
  build_monthly_dataframe (with_months 0 form_defaults) = [] /\
  List.length (build_monthly_dataframe form_defaults) = 12%nat.
Proof.
  destruct (monthly_table_shape (with_months 0 form_defaults))
    as (_ & _ & Hempty).
  destruct (monthly_table_shape form_defaults) as (_ & Hlength & _).
  split; [apply Hempty; apply Z.leb_le; reflexivity | exact Hlength].
Defined.

Lemma lifetime_gate_window_witness :
  is_active_by_lifetime 7 (Z.max (7 - 2) 0) 6 "After free months" = true /\
  is_active_by_lifetime 8 (Z.max (8 - 2) 0) 6 "After free months" = false.
Proof.
  split.
  - apply (lifetime_gate_window 6 2 "After free months" 7).
    right. right. split; [discriminate | apply Z.ltb_lt; reflexivity].
  - destruct (is_active_by_lifetime 8 (Z.max (8 - 2) 0) 6 "After free months")
      eqn:Hactive; [| reflexivity].
    apply (lifetime_gate_window 6 2 "After free months" 8) in Hactive.
    destruct Hactive as [H | [[H _] | [_ H]]]; [lia | discriminate H | lia].
Defined.

(** X23.  A policy string that is none of the three the form offers is not
    rejected: the engine then pays neither bonus nor commission, and every
    row has no paying client, no gross payment, no new-sale income, no
    commission and no earnings. *)
Theorem unknown_policy_earns_nothing :
  forall (p : Params) (r : Row),
    payout_policy p <> "Bonus only (no recurring)"%string ->
    payout_policy p <> "Bonus + Recurring"%string ->
    payout_policy p <> "Recurring only (no bonus)"%string ->
    In r (build_monthly_dataframe p) ->
    Paying_SMEs_this_month r = 0%Q /\
    Client_Payments_Gross r = 0%Q /\
    (New_Sale_Income r == 0)%Q /\
    Commission_from_Clients r = 0%Q /\
    (Total_Monthly_Earnings r == 0)%Q.
Proof.
  intros p r Hb Hbr Hr Hin. emitted_row Hin.
  unfold include_bonus_of, include_recurring_of in *. cbn [existsb] in *.
  destruct (String.eqb_spec (payout_policy p) "Bonus only (no recurring)");
    [contradiction |].
  destruct (String.eqb_spec (payout_policy p) "Bonus + Recurring");
    [contradiction |].
  destruct (String.eqb_spec (payout_policy p) "Recurring only (no bonus)");
    [contradiction |].
  cbn [orb andb] in *. injection Hrec as <- <-.
  repeat split;
    destruct (String.eqb (payout_type p) "Commissionable (x%)"); ring.
Qed.

Lemma unknown_policy_earns_nothing_witness :
  (Total_Monthly_Earnings
     (row_of_month (with_policy "Recurring only" form_defaults) 4) == 0)%Q.
Proof.
  apply (unknown_policy_earns_nothing
           (with_policy "Recurring only" form_defaults)).
  - discriminate.
  - discriminate.
  - discriminate.
  - apply row_of_month_In. split; apply Z.leb_le; reflexivity.
Defined.
